(** * polypaper: sizing, fill simulation, gating and ledger

    A shallow embedding of the paper-trading engine ([polytrader]) and of
    the spread monitor ([spread_monitor.py]).

    Python floats are read as exact rationals ([Q]): the statements over
    [Q] are about the arithmetic the program intends, and an equality of
    amounts ([Qeq], [==]) holds of the running program up to rounding.
    Where rounding decides what the program does, the order-book walk is
    given once more on binary64 numbers ([Binary64]) and evaluated
    there.  The fair-value formula needs [log], [sqrt] and [erf] and is
    stated over [R]. *)

From Stdlib Require Import PrimFloat.
From Stdlib Require Import Reals Lra.
From Stdlib Require Import QArith Qminmax Qround Lqa Lia ZArith List Bool.
From stdpp Require Import gmap strings.

Local Open Scope Q_scope.

(** ** Python's [min] and [max] on numbers

    [max(a, b)] keeps [a] unless [b > a]; [min(a, b)] keeps [a] unless
    [b < a].  The three-argument [min] folds from the left. *)

Definition fmax (a b : Q) : Q := if Qlt_le_dec a b then b else a.
Definition fmin (a b : Q) : Q := if Qlt_le_dec b a then b else a.
Definition fmin3 (a b c : Q) : Q := fmin (fmin a b) c.

(** [x <= y] and [x < y] as the tests the interpreter evaluates. *)
Definition leb (x y : Q) : bool := if Qlt_le_dec y x then false else true.
Definition ltb (x y : Q) : bool := if Qlt_le_dec x y then true else false.

(** ** Shared records ([polytrader/types.py]) *)

Record Signal := {
  sig_side : string;          (* buy_yes | buy_no *)
  sig_token_id : string;
  market_price : Q;
  model_price : Q;
  edge : Q;
  confidence : Q
}.

Record SizedOrder := {
  ord_side : string;
  ord_token_id : string;
  order_usd : Q;
  full_kelly_meta : Q
}.

Record FillResult := {
  avg_price : Q;
  shares : Q;
  spent_usd : Q;
  levels_used : nat;
  slippage_bps : Q
}.

(** ** Fractional Kelly ([polytrader/sizers/kelly.py], and the same rule
    inlined in [spread_monitor.evaluate_market]) *)

Module Kelly.

Record KellySizer := { fraction : Q; max_usd : Q }.

(** [KellySizer.__init__] *)
Definition init (fraction0 max_usd0 : Q) : KellySizer :=
  {| fraction := fmin (fmax fraction0 0) 1; max_usd := fmax max_usd0 0 |}.

(** The clamped market price [q] and model probability [p]. *)
Definition clamp_q (market_px : Q) : Q := fmin (fmax market_px (1 # 1000000)) (999999 # 1000000).
Definition clamp_p (model_px : Q) : Q := fmin (fmax model_px 0) 1.

(** [full_kelly] of [KellySizer.size]. *)
Definition full_kelly (market_px model_px : Q) : Q :=
  let q := clamp_q market_px in
  let p := clamp_p model_px in
  fmax 0 (fmin 1 ((p - q) / (1 - q))).

(** [KellySizer.size] *)
Definition size (self : KellySizer) (signal : Signal) (cash : Q) : option SizedOrder :=
  let fk := full_kelly (market_price signal) (model_price signal) in
  let scaled := fraction self * fk in
  let order := fmin3 (fmax cash 0 * scaled) (max_usd self) (fmax cash 0) in
  if leb order 0 then None
  else Some {| ord_side := sig_side signal; ord_token_id := sig_token_id signal;
               order_usd := order; full_kelly_meta := fk |}.

(** [kelly_full] of [spread_monitor.evaluate_market], which also floors
    the denominator. *)
Definition kelly_full (market_px model_px : Q) : Q :=
  let q := clamp_q market_px in
  let p := clamp_p model_px in
  fmax 0 (fmin 1 ((p - q) / fmax (1 - q) (1 # 1000000))).

End Kelly.

(** ** Order-book walk ([polytrader/fill_engine.py])

    Amounts are exact here.  How two amounts compare can differ in the
    running program by a rounding error; [Binary64] below has the same
    walk on binary64 numbers. *)

Module Fill.

(** One entry of [book["asks"]].  A field is [None] when reading it and
    converting it with [float] raises (missing key, not a number, entry
    not a mapping). *)
Record Level := { price : option Q; size : option Q }.

Definition lvl (px sz : Q) : Level := {| price := Some px; size := Some sz |}.

(** The loop variables of [simulate_buy]. *)
Record Walk := {
  remaining_usd : Q;
  spent : Q;
  acquired : Q;     (* [shares] *)
  levels : nat
}.

Definition eps : Q := 1 # 1000000000.

(** The body of [for lvl in asks], with [continue] and [break]. *)
Fixpoint walk (asks : list Level) (w : Walk) : Walk :=
  match asks with
  | [] => w
  | l :: rest =>
      match price l, size l with
      | Some px, Some sz =>
          if leb px 0 || leb sz 0 then walk rest w
          else
            let level_capacity_usd := px * sz in
            let take_usd := fmin (remaining_usd w) level_capacity_usd in
            let take_shares := take_usd / px in
            let w' := {| remaining_usd := remaining_usd w - take_usd;
                         spent := spent w + take_usd;
                         acquired := acquired w + take_shares;
                         levels := S (levels w) |} in
            if leb (remaining_usd w') eps then w' else walk rest w'
      | _, _ => walk rest w
      end
  end.

(** [float(asks[0]["price"])], falling back to the average price when
    that raises. *)
Definition top_ask (asks : list Level) (avg : Q) : Q :=
  match asks with
  | l :: _ => match price l with Some px => px | None => avg end
  | [] => avg
  end.

(** [FillEngine.simulate_buy].  The book is [None] when it is not a
    mapping or carries no list under ["asks"]. *)
Definition simulate_buy (book : option (list Level)) (usd_amount : Q) : option FillResult :=
  match book with
  | None => None
  | Some asks =>
      if leb usd_amount 0 then None
      else
        let w := walk asks {| remaining_usd := usd_amount; spent := 0; acquired := 0; levels := 0 |} in
        if leb (acquired w) 0 || leb (spent w) 0 then None
        else
          let avg := spent w / acquired w in
          let top := top_ask asks avg in
          Some {| avg_price := avg;
                  shares := acquired w;
                  spent_usd := spent w;
                  levels_used := levels w;
                  slippage_bps := ((avg / fmax top eps) - 1) * 10000 |}
  end.

(** A level the walk can consume. *)
Definition consumable (l : Level) : bool :=
  match price l, size l with
  | Some px, Some sz => negb (leb px 0 || leb sz 0)
  | _, _ => false
  end.

(** Following the spec's words: the price of the first level with
    positive price and size. *)
Fixpoint first_consumable_price (asks : list Level) : option Q :=
  match asks with
  | [] => None
  | l :: rest => if consumable l then price l else first_consumable_price rest
  end.

(** Following the spec's words: slippage against that price. *)
Definition claimed_slippage_bps (asks : list Level) (r : FillResult) : option Q :=
  match first_consumable_price asks with
  | Some best => Some (((avg_price r / best) - 1) * 10000)
  | None => None
  end.

End Fill.

(** ** The same walk in binary64

    [simulate_buy] once more, on IEEE binary64 numbers with the
    operations rounded as Python rounds them, to evaluate the code where
    rounding decides.  A literal stands for the nearest binary64 number,
    as it does in Python. *)

Module Binary64.
Local Open Scope float_scope.
#[local] Set Warnings "-inexact-float".

(** Python's [min] and [max] on floats. *)
Definition fmin (a b : float) : float := if PrimFloat.ltb b a then b else a.
Definition fmax (a b : float) : float := if PrimFloat.ltb a b then b else a.

Record Level := { price : option float; size : option float }.

Definition lvl (px sz : float) : Level := {| price := Some px; size := Some sz |}.

Record Walk := {
  remaining_usd : float;
  spent : float;
  acquired : float;
  levels : nat
}.

Record FillResult := {
  avg_price : float;
  shares : float;
  spent_usd : float;
  levels_used : nat;
  slippage_bps : float
}.

Definition eps : float := 1e-9.

(** The body of [for lvl in asks]. *)
Fixpoint walk (asks : list Level) (w : Walk) : Walk :=
  match asks with
  | [] => w
  | l :: rest =>
      match price l, size l with
      | Some px, Some sz =>
          if PrimFloat.leb px 0 || PrimFloat.leb sz 0 then walk rest w
          else
            let level_capacity_usd := px * sz in
            let take_usd := fmin (remaining_usd w) level_capacity_usd in
            let take_shares := take_usd / px in
            let w' := {| remaining_usd := remaining_usd w - take_usd;
                         spent := spent w + take_usd;
                         acquired := acquired w + take_shares;
                         levels := S (levels w) |} in
            if PrimFloat.leb (remaining_usd w') eps then w' else walk rest w'
      | _, _ => walk rest w
      end
  end.

Definition top_ask (asks : list Level) (avg : float) : float :=
  match asks with
  | l :: _ => match price l with Some px => px | None => avg end
  | [] => avg
  end.

(** [FillEngine.simulate_buy] *)
Definition simulate_buy (book : option (list Level)) (usd_amount : float) : option FillResult :=
  match book with
  | None => None
  | Some asks =>
      if PrimFloat.leb usd_amount 0 then None
      else
        let w := walk asks {| remaining_usd := usd_amount; spent := 0; acquired := 0; levels := 0 |} in
        if PrimFloat.leb (acquired w) 0 || PrimFloat.leb (spent w) 0 then None
        else
          let avg := spent w / acquired w in
          let top := top_ask asks avg in
          Some {| avg_price := avg;
                  shares := acquired w;
                  spent_usd := spent w;
                  levels_used := levels w;
                  slippage_bps := ((avg / fmax top eps) - 1) * 10000 |}
  end.

Definition consumable (l : Level) : bool :=
  match price l, size l with
  | Some px, Some sz => negb (PrimFloat.leb px 0 || PrimFloat.leb sz 0)
  | _, _ => false
  end.

(** [FixedSizer.size], the amount only: [None] for no order. *)
Definition fixed_order (usd cash : float) : option float :=
  let order_usd := fmin usd (fmax cash 0) in
  if PrimFloat.leb order_usd 0 then None else Some order_usd.

(** One pass of the order loop of [scan_once] for a snapshot with a
    signal, a [FixedSizer] and a book: the value handed to
    [update_cash], or [None] when the pass ends in [continue]. *)
Definition debit (usd cash : float) (book : option (list Level)) : option float :=
  match fixed_order usd cash with
  | None => None
  | Some order_usd =>
      if PrimFloat.ltb cash order_usd then None
      else
        match simulate_buy book order_usd with
        | None => None
        | Some fill => Some (cash - spent_usd fill)
        end
  end.

End Binary64.

(** ** Calls that may raise *)

Inductive result (A : Type) : Type :=
| Ok (a : A)
| Raised.
Arguments Ok {A} a.
Arguments Raised {A}.

(** ** The persisted ledger ([polytrader/db.py]) *)

Module Ledger.

Inductive Status := Open | Closed.

Definition is_open (s : Status) : bool :=
  match s with Open => true | Closed => false end.

(** The [accounts] row with [id = 1]. *)
Record Account := { starting_bankroll : Q; cash : Q }.

(** A row of [runs]. *)
Record Run := {
  run_model : string;
  run_sizer : string;
  markets_scanned : nat;
  opportunities : nat;
  signals : nat
}.

(** A row of [trades]; [closed_at], [question] and [notes_json] carry no
    arithmetic and are left out. *)
Record Trade := {
  trade_id : nat;
  run_id : nat;
  market_id : string;
  market_slug : string;
  side : string;
  token_id : string;
  entry_price : Q;
  trade_shares : Q;
  notional_usd : Q;
  trade_model_price : Q;
  trade_edge : Q;
  trade_confidence : Q;
  status : Status;
  exit_price : option Q;
  realized_pnl : option Q
}.

(** The tables.  Rows are kept in insertion order, which is the order
    of [opened_at]; ids are handed out by AUTOINCREMENT and rows are
    never deleted, so the next id is one more than the row count. *)
Record Db := {
  account : option Account;
  runs : list Run;
  trades : list Trade
}.

Definition empty_db : Db := {| account := None; runs := []; trades := [] |}.

(** A connection: the state this connection sees, and the states it
    has committed so far, newest first.  Other readers of the file (the
    dashboard, a later CLI call) see only committed states. *)
Record Conn := { cur : Db; durable : list Db }.

Definition connect (file : Db) : Conn := {| cur := file; durable := [file] |}.

Definition commit (c : Conn) : Conn :=
  {| cur := cur c; durable := cur c :: durable c |}.

(** What is on disk. *)
Definition on_disk (c : Conn) : Db :=
  match durable c with d :: _ => d | [] => empty_db end.

Definition with_account (a : option Account) (d : Db) : Db :=
  {| account := a; runs := runs d; trades := trades d |}.

Definition with_trades (ts : list Trade) (d : Db) : Db :=
  {| account := account d; runs := runs d; trades := ts |}.

Definition with_runs (rs : list Run) (d : Db) : Db :=
  {| account := account d; runs := rs; trades := trades d |}.

Definition exec (f : Db -> Db) (c : Conn) : Conn :=
  {| cur := f (cur c); durable := durable c |}.

(** [init_db]: the account row is inserted only when there is none. *)
Definition init_db (c : Conn) (bankroll : Q) : Conn :=
  commit (exec (fun d =>
    match account d with
    | Some _ => d
    | None => with_account (Some {| starting_bankroll := bankroll; cash := bankroll |}) d
    end) c).

(** [get_account] raises when the row is missing. *)
Definition get_account (c : Conn) : result Account :=
  match account (cur c) with
  | Some a => Ok a
  | None => Raised
  end.

(** [update_cash]: one UPDATE, then a commit. *)
Definition update_cash (c : Conn) (new_cash : Q) : Conn :=
  commit (exec (fun d =>
    with_account
      (match account d with
       | Some a => Some {| starting_bankroll := starting_bankroll a; cash := new_cash |}
       | None => None
       end) d) c).

(** [insert_run]: one INSERT, then a commit; returns the new id. *)
Definition insert_run (c : Conn) (r : Run) : Conn * nat :=
  (commit (exec (fun d => with_runs (runs d ++ [r]) d) c), S (length (runs (cur c)))).

(** [insert_trade]: one INSERT with status ['open'], then a commit. *)
Definition insert_trade (c : Conn) (run market_id_ market_slug_ side_ token_id_ : _)
    (entry_price_ shares_ notional_usd_ model_price_ edge_ confidence_ : Q) : Conn * nat :=
  let new_id := S (length (trades (cur c))) in
  let row := {| trade_id := new_id; run_id := run; market_id := market_id_;
                market_slug := market_slug_; side := side_; token_id := token_id_;
                entry_price := entry_price_; trade_shares := shares_;
                notional_usd := notional_usd_; trade_model_price := model_price_;
                trade_edge := edge_; trade_confidence := confidence_;
                status := Open; exit_price := None; realized_pnl := None |} in
  (commit (exec (fun d => with_trades (trades d ++ [row]) d) c), new_id).

(** [list_open_trades] and [list_closed_trades], up to row order. *)
Definition list_open_trades (c : Conn) : list Trade :=
  List.filter (fun t => is_open (status t)) (trades (cur c)).

Definition list_closed_trades (c : Conn) : list Trade :=
  List.filter (fun t => negb (is_open (status t))) (trades (cur c)).

(** The branch on [side] in [close_market_positions]. *)
Definition payout_per_share (side_ : string) (outcome_yes : bool) : Q :=
  if String.eqb side_ "buy_yes" then (if outcome_yes then 1 else 0)
  else if String.eqb side_ "buy_no" then (if outcome_yes then 0 else 1)
  else 0.

(** The row as the UPDATE leaves it. *)
Definition closed_row (pps pnl : Q) (t : Trade) : Trade :=
  {| trade_id := trade_id t; run_id := run_id t; market_id := market_id t;
     market_slug := market_slug t; side := side t; token_id := token_id t;
     entry_price := entry_price t; trade_shares := trade_shares t;
     notional_usd := notional_usd t; trade_model_price := trade_model_price t;
     trade_edge := trade_edge t; trade_confidence := trade_confidence t;
     status := Closed; exit_price := Some pps; realized_pnl := Some pnl |}.

(** The dictionary appended to [closed]: the row as it was read before
    the UPDATE, with [exit_price] and [realized_pnl] overwritten; its
    [status] is still the one read. *)
Definition returned_row (pps pnl : Q) (t : Trade) : Trade :=
  {| trade_id := trade_id t; run_id := run_id t; market_id := market_id t;
     market_slug := market_slug t; side := side t; token_id := token_id t;
     entry_price := entry_price t; trade_shares := trade_shares t;
     notional_usd := notional_usd t; trade_model_price := trade_model_price t;
     trade_edge := trade_edge t; trade_confidence := trade_confidence t;
     status := status t; exit_price := Some pps; realized_pnl := Some pnl |}.

(** [UPDATE trades SET status='closed', exit_price=?, realized_pnl=?
    WHERE id=?] *)
Definition update_trade_closed (id : nat) (pps pnl : Q) (d : Db) : Db :=
  with_trades
    (map (fun t => if Nat.eqb (trade_id t) id then closed_row pps pnl t else t) (trades d)) d.

(** The loop over [open_rows]: each UPDATE is pending, nothing is
    committed inside the loop; [closed] collects the dictionaries read,
    not the rows as updated. *)
Fixpoint settle_rows (open_rows : list Trade) (outcome_yes : bool)
    (c : Conn) (cash_ : Q) (closed : list Trade) : Conn * Q * list Trade :=
  match open_rows with
  | [] => (c, cash_, closed)
  | trade :: rest =>
      let payout_per_share_ := payout_per_share (side trade) outcome_yes in
      let payout := trade_shares trade * payout_per_share_ in
      let pnl := payout - notional_usd trade in
      let c' := exec (update_trade_closed (trade_id trade) payout_per_share_ pnl) c in
      settle_rows rest outcome_yes c' (cash_ + payout)
        (closed ++ [returned_row payout_per_share_ pnl trade])
  end.

(** [close_market_positions] *)
Definition close_market_positions (c : Conn) (slug : string) (outcome_yes : bool)
    : Conn * result (list Trade) :=
  let open_rows :=
    List.filter (fun t => is_open (status t) && String.eqb (market_slug t) slug) (trades (cur c)) in
  match get_account c with
  | Raised => (c, Raised)
  | Ok acct =>
      let '(c1, cash_, closed) := settle_rows open_rows outcome_yes c (cash acct) [] in
      let c2 := update_cash c1 cash_ in
      (commit c2, Ok closed)
  end.

End Ledger.

(** ** One scan ([polytrader/engine.py]) *)

Module Engine.
Import Ledger.

Record MarketSnapshot := {
  snap_market_id : string;
  slug : string;
  yes_token_id : string;
  no_token_id : string;
  yes_mid : Q;
  no_mid : Q
}.

(** [BaseModel] and [BaseSizer]: the two operations the scan consults.
    A model reaches the network and may raise. *)
Record BaseModel := {
  model_name : string;
  evaluate : MarketSnapshot -> result (option Signal)
}.

Record BaseSizer := {
  sizer_name : string;
  size : Signal -> Q -> option SizedOrder
}.

(** [FixedSizer] *)
Definition FixedSizer (usd : Q) : BaseSizer :=
  {| sizer_name := "fixed";
     size := fun signal cash_ =>
       let order := fmin usd (fmax cash_ 0) in
       if leb order 0 then None
       else Some {| ord_side := sig_side signal; ord_token_id := sig_token_id signal;
                    order_usd := order; full_kelly_meta := 0 |} |}.

(** [KellySizer] behind the same interface. *)
Definition KellySizer (k : Kelly.KellySizer) : BaseSizer :=
  {| sizer_name := "kelly"; size := Kelly.size k |}.

(** An entry of [placed_rows]. *)
Record Placed := {
  p_market_id : string;
  p_market_slug : string;
  p_side : string;
  p_token_id : string;
  p_fill : FillResult;
  p_model_price : Q;
  p_edge : Q;
  p_confidence : Q
}.

(** The second loop of [scan_once], over the snapshots: evaluate, size,
    fetch the book, simulate the fill and, on a fill, debit the running
    cash and persist it.  [fetch_book] answers [Ok None] for a failed
    request and raises on a transport error.  The loop stops at the
    first exception, which leaves [scan_once].  The cash is exact here;
    [Binary64.debit] has the subtraction as the program rounds it. *)
Fixpoint place_orders (model : BaseModel) (sizer : BaseSizer)
    (fetch_book : string -> result (option (option (list Fill.Level))))
    (snapshots : list MarketSnapshot)
    (c : Conn) (cash_ : Q) (n_opps : nat) (placed_rows : list Placed)
    : Conn * result (Q * nat * list Placed) :=
  match snapshots with
  | [] => (c, Ok (cash_, n_opps, placed_rows))
  | snap :: rest =>
      let continue_ c' cash' n' rows' :=
        place_orders model sizer fetch_book rest c' cash' n' rows' in
      match evaluate model snap with
      | Raised => (c, Raised)
      | Ok None => continue_ c cash_ n_opps placed_rows
      | Ok (Some sig) =>
          match size sizer sig cash_ with
          | None => continue_ c cash_ (S n_opps) placed_rows
          | Some order =>
              if ltb cash_ (order_usd order) then continue_ c cash_ (S n_opps) placed_rows
              else
                match fetch_book (ord_token_id order) with
                | Raised => (c, Raised)
                | Ok None => continue_ c cash_ (S n_opps) placed_rows
                | Ok (Some book) =>
                    match Fill.simulate_buy book (order_usd order) with
                    | None => continue_ c cash_ (S n_opps) placed_rows
                    | Some fill =>
                        let cash' := cash_ - spent_usd fill in
                        let c' := update_cash c cash' in
                        continue_ c' cash' (S n_opps)
                          (placed_rows ++
                           [{| p_market_id := snap_market_id snap;
                               p_market_slug := slug snap;
                               p_side := ord_side order;
                               p_token_id := ord_token_id order;
                               p_fill := fill;
                               p_model_price := model_price sig;
                               p_edge := edge sig;
                               p_confidence := confidence sig |}])
                    end
                end
          end
      end
  end.

(** The third loop: one [insert_trade] per placed row. *)
Fixpoint insert_trades (c : Conn) (run : nat) (placed_rows : list Placed)
    (trade_ids : list nat) : Conn * list nat :=
  match placed_rows with
  | [] => (c, trade_ids)
  | row :: rest =>
      let '(c', id) :=
        insert_trade c run (p_market_id row) (p_market_slug row) (p_side row) (p_token_id row)
          (avg_price (p_fill row)) (shares (p_fill row)) (spent_usd (p_fill row))
          (p_model_price row) (p_edge row) (p_confidence row) in
      insert_trades c' run rest (trade_ids ++ [id])
  end.

Record ScanResult := {
  res_run_id : nat;
  orders_placed : list Placed;
  trade_ids : list nat;
  cash_after : Q
}.

(** [scan_once], from the filtered snapshots on. *)
Definition scan_once (c : Conn) (model : BaseModel) (sizer : BaseSizer)
    (fetch_book : string -> result (option (option (list Fill.Level))))
    (snapshots : list MarketSnapshot) : Conn * result ScanResult :=
  match get_account c with
  | Raised => (c, Raised)
  | Ok acct =>
      match place_orders model sizer fetch_book snapshots c (cash acct) 0 [] with
      | (c1, Raised) => (c1, Raised)
      | (c1, Ok (cash_, n_opps, placed_rows)) =>
          let '(c2, run) :=
            insert_run c1 {| run_model := model_name model; run_sizer := sizer_name sizer;
                             markets_scanned := length snapshots;
                             opportunities := n_opps;
                             signals := length placed_rows |} in
          let '(c3, ids) := insert_trades c2 run placed_rows [] in
          (c3, Ok {| res_run_id := run; orders_placed := placed_rows;
                     trade_ids := ids; cash_after := cash_ |})
      end
  end.

(** The two ledger commands of the CLI, [scan] and [resolve]. *)
Inductive Command :=
| Scan (model : BaseModel) (sizer : BaseSizer)
       (fetch_book : string -> result (option (option (list Fill.Level))))
       (snapshots : list MarketSnapshot)
| Resolve (slug_ : string) (outcome_yes : bool).

(** Runs one command; the flag says whether it returned normally. *)
Definition run_command (c : Conn) (cmd : Command) : Conn * bool :=
  match cmd with
  | Scan model sizer fetch_book snapshots =>
      match scan_once c model sizer fetch_book snapshots with
      | (c', Ok _) => (c', true)
      | (c', Raised) => (c', false)
      end
  | Resolve slug_ outcome_yes =>
      match close_market_positions c slug_ outcome_yes with
      | (c', Ok _) => (c', true)
      | (c', Raised) => (c', false)
      end
  end.

(** Runs the commands in turn on the same database file; the flag says
    whether all of them returned normally. *)
Fixpoint run_commands (c : Conn) (cmds : list Command) : Conn * bool :=
  match cmds with
  | [] => (c, true)
  | cmd :: rest =>
      let '(c1, ok1) := run_command c cmd in
      let '(c2, ok2) := run_commands c1 rest in
      (c2, ok1 && ok2)
  end.

(** Realized PnL over the closed trades, and notional over the open ones. *)
Fixpoint realized_total (ts : list Trade) : Q :=
  match ts with
  | [] => 0
  | t :: rest =>
      (match status t, realized_pnl t with
       | Closed, Some pnl => pnl
       | _, _ => 0
       end) + realized_total rest
  end.

Fixpoint open_notional (ts : list Trade) : Q :=
  match ts with
  | [] => 0
  | t :: rest => (if is_open (status t) then notional_usd t else 0) + open_notional rest
  end.

End Engine.

(** ** The spread monitor ([spread_monitor.py]) *)

Module Monitor.

(** The command-line arguments, which the runtime config file may
    overwrite before every cycle. *)
Record Args := {
  bankroll_usd : Q;
  kelly_fraction : Q;
  max_paper_order_usd : Q;
  live_order_usd : Q;
  threshold : Q;
  fee_bps : Q;
  slippage_bps : Q;
  gas_usd : Q;
  paper_only : bool;
  execute_live : bool;
  confirm_live : bool;
  min_persist_runs : Z;
  signal_cooldown_runs : Z;
  min_improvement_bps : Q;
  loop_secs : Z;
  max_runs : Z
}.

(** [validate_args]: [true] when no [SystemExit] is raised. *)
Definition validate_args (args : Args) : bool :=
  if ltb 5 (live_order_usd args) then false
  else if negb (leb 0 (kelly_fraction args) && leb (kelly_fraction args) 1) then false
  else if paper_only args && execute_live args then false
  else if (min_persist_runs args <? 1)%Z then false
  else if (signal_cooldown_runs args <? 0)%Z then false
  else if ltb (min_improvement_bps args) 0 then false
  else true.

(** A market as [evaluate_market] sees it once the question is parsed,
    both midpoints are known and the fair-value model has produced
    [model_yes]; [m_slug] is [str(m.get("slug") or "")]. *)
Record Priced := {
  m_slug : string;
  yes_token : string;
  no_token : string;
  yes_mid : Q;
  no_mid : Q;
  model_yes : Q
}.

(** The dictionary [evaluate_market] returns, with the [persist_runs]
    entry [run_scan] adds (0 while absent). *)
Record Opp := {
  slug : string;
  choice : string;
  token : string;
  gross_edge : Q;
  total_cost_frac : Q;
  net_edge : Q;
  order_usd : Q;
  kelly_full_fraction : Q;
  kelly_scaled_fraction : Q;
  persist_runs : Z
}.

Definition with_persist_runs (o : Opp) (n : Z) : Opp :=
  {| slug := slug o; choice := choice o; token := token o; gross_edge := gross_edge o;
     total_cost_frac := total_cost_frac o; net_edge := net_edge o; order_usd := order_usd o;
     kelly_full_fraction := kelly_full_fraction o;
     kelly_scaled_fraction := kelly_scaled_fraction o; persist_runs := n |}.

(** [evaluate_market], from the side choice on. *)
Definition evaluate_market (m : Priced) (fee_frac bankroll_usd_ kelly_fraction_
    max_paper_order_usd_ live_order_usd_ : Q) (execute_live_ : bool)
    (slippage_bps_ gas_usd_ : Q) : Opp :=
  let model_no := 1 - model_yes m in
  let '(side, token_, market_px, model_px, gross) :=
    if ltb (yes_mid m) (model_yes m)
    then ("buy_yes", yes_token m, yes_mid m, model_yes m, model_yes m - yes_mid m)
    else ("buy_no", no_token m, no_mid m, model_no, model_no - no_mid m) in
  let kelly_full := Kelly.kelly_full market_px model_px in
  let kelly_scaled := fmax 0 (fmin 1 (kelly_fraction_ * kelly_full)) in
  let suggested_order_usd := bankroll_usd_ * kelly_scaled in
  let order :=
    if execute_live_ then fmin live_order_usd_ suggested_order_usd
    else fmin max_paper_order_usd_ suggested_order_usd in
  let gas_frac := fmax (gas_usd_ / fmax order (1 # 100)) 0 in
  let slip := slippage_bps_ / 10000 in
  let total_cost := fee_frac + gas_frac + slip in
  {| slug := m_slug m; choice := side; token := token_; gross_edge := gross;
     total_cost_frac := total_cost; net_edge := gross - total_cost; order_usd := order;
     kelly_full_fraction := kelly_full; kelly_scaled_fraction := kelly_scaled;
     persist_runs := 0 |}.

(** [gate_state]: three dictionaries keyed by slug.  The counters and
    cycle indices are stored as floats holding whole numbers. *)
Record GateState := {
  streak_by_slug : gmap string Z;
  last_signal_run : gmap string Z;
  last_signal_edge : gmap string Q
}.

Definition empty_gate : GateState :=
  {| streak_by_slug := ∅; last_signal_run := ∅; last_signal_edge := ∅ |}.

(** The records appended to the log file, by their [action] tag. *)
Inductive Event :=
| run_start
| evaluation (slug_ : string)
| market_error
| decision (slug_ : string) (net_edge_ : Q) (persist_runs_ : Z)
| signal_blocked_persistence (slug_ : string) (persist_runs_ required_runs : Z)
| signal_blocked_cooldown (slug_ : string) (runs_since : Z) (improvement_bps : Q)
| paper_trade_signal (slug_ : string) (net_edge_ : Q)
| blocked_missing_confirm_live (slug_ : string)
| blocked_live_over_cap (slug_ : string) (order_usd_ : Q)
| live_order_submitted (slug_ : string)
| run_summary
| run_error.

(** A [clob market-order] call: the token and the [--amount] sent. *)
Record MarketOrder := { mo_token : string; amount : Q }.

(** What the process has written and sent so far. *)
Record World := { log : list Event; submitted : list MarketOrder }.

Definition write_log (w : World) (e : Event) : World :=
  {| log := log w ++ [e]; submitted := submitted w |}.

Definition send_order (w : World) (o : MarketOrder) : World :=
  {| log := log w; submitted := submitted w ++ [o] |}.

(** [round(x, 2)]: to the nearest hundredth, ties to the even one. *)
Definition round2 (x : Q) : Q :=
  let y := x * 100 in
  let f := Qfloor y in
  let r := y - inject_Z f in
  let n := if ltb r (1 # 2) then f
           else if ltb (1 # 2) r then (f + 1)%Z
           else if Z.even f then f else (f + 1)%Z in
  inject_Z n / 100.

Definition no_last_run : Z := (- 10 ^ 9)%Z.
Definition no_last_edge : Q := - inject_Z (10 ^ 9).
Definition no_improvement : Q := inject_Z (10 ^ 9).

(** The improvement over the last fired signal, in basis points. *)
Definition improvement_bps_of (net_edge_ last_edge : Q) : Q :=
  if ltb (- inject_Z (10 ^ 8)) last_edge then (net_edge_ - last_edge) * 10000
  else no_improvement.

(** [maybe_execute].  [broker] is the order channel: it answers [false]
    when [run_polymarket] raises.  The last component of the result is
    [false] when the exception leaves [maybe_execute]. *)
Definition maybe_execute (opp : Opp) (threshold_ : Q) (execute_live_ confirm_live_ : bool)
    (max_live_order_usd : Q) (run_seq : Z) (gate_state : GateState)
    (min_persist_runs_ signal_cooldown_runs_ : Z) (min_improvement_bps_ : Q)
    (broker : MarketOrder -> bool) (w : World) : GateState * World * bool :=
  let slug_ := slug opp in
  let net_edge_ := net_edge opp in
  let persist_runs_ := persist_runs opp in
  let w := write_log w (decision slug_ net_edge_ persist_runs_) in
  if ltb net_edge_ threshold_ then (gate_state, w, true)
  else if (persist_runs_ <? min_persist_runs_)%Z then
    (gate_state, write_log w (signal_blocked_persistence slug_ persist_runs_ min_persist_runs_), true)
  else
    let last_run := default no_last_run (last_signal_run gate_state !! slug_) in
    let last_edge := default no_last_edge (last_signal_edge gate_state !! slug_) in
    let runs_since := (run_seq - last_run)%Z in
    let improvement := improvement_bps_of net_edge_ last_edge in
    if (runs_since <? signal_cooldown_runs_)%Z && ltb improvement min_improvement_bps_ then
      (gate_state, write_log w (signal_blocked_cooldown slug_ runs_since improvement), true)
    else
      let fired :=
        {| streak_by_slug := streak_by_slug gate_state;
           last_signal_run := <[slug_ := run_seq]> (last_signal_run gate_state);
           last_signal_edge := <[slug_ := net_edge_]> (last_signal_edge gate_state) |} in
      if negb execute_live_ then
        (fired, write_log w (paper_trade_signal slug_ net_edge_), true)
      else if negb confirm_live_ then
        (gate_state, write_log w (blocked_missing_confirm_live slug_), true)
      else if ltb max_live_order_usd (order_usd opp) then
        (gate_state, write_log w (blocked_live_over_cap slug_ (order_usd opp)), true)
      else
        let order := {| mo_token := token opp; amount := round2 (order_usd opp) |} in
        let w := send_order w order in
        if broker order then (fired, write_log w (live_order_submitted slug_), true)
        else (gate_state, w, false).

(** [opportunities.sort(key=net_edge, reverse=True)]: stable, largest
    net edge first. *)
Fixpoint insert_desc (o : Opp) (sorted : list Opp) : list Opp :=
  match sorted with
  | [] => [o]
  | o' :: rest =>
      if ltb (net_edge o) (net_edge o') then o' :: insert_desc o rest
      else o :: sorted
  end.

Definition sort_desc (opps : list Opp) : list Opp := foldr insert_desc [] opps.

(** [pass_slugs] *)
Definition pass_slugs (threshold_ : Q) (opps : list Opp) : gset string :=
  list_to_set (map slug (List.filter (fun o => leb threshold_ (net_edge o)) opps)).

(** The first streak loop: every known slug that did not pass is reset. *)
Definition reset_streaks (pass : gset string) (streak : gmap string Z) : gmap string Z :=
  map_imap (fun k v => Some (if decide (k ∈ pass) then v else 0%Z)) streak.

(** The second streak loop, which also stamps [persist_runs]. *)
Fixpoint stamp_streaks (pass : gset string) (opps : list Opp) (streak : gmap string Z)
    : list Opp * gmap string Z :=
  match opps with
  | [] => ([], streak)
  | o :: rest =>
      if String.eqb (slug o) "" then
        let '(rest', streak') := stamp_streaks pass rest streak in
        (with_persist_runs o 0 :: rest', streak')
      else
        let n := if decide (slug o ∈ pass) then (default 0 (streak !! slug o) + 1)%Z else 0%Z in
        let '(rest', streak') := stamp_streaks pass rest (<[slug o := n]> streak) in
        (with_persist_runs o n :: rest', streak')
  end.

(** The block of [run_scan] between the evaluations and the loop over
    [top]: sort, compute [pass_slugs], run both streak loops. *)
Definition rank_and_stamp (threshold_ : Q) (opportunities : list Opp)
    (streak : gmap string Z) : list Opp * gmap string Z :=
  let opportunities := sort_desc opportunities in
  let pass := pass_slugs threshold_ opportunities in
  stamp_streaks pass opportunities (reset_streaks pass streak).

(** The opportunities of a cycle, as [run_scan] evaluates them. *)
Definition evaluate_all (args : Args) (markets : list Priced) : list Opp :=
  let fee_frac := fmax (fee_bps args) 0 / 10000 in
  map (fun m => evaluate_market m fee_frac (bankroll_usd args) (kelly_fraction args)
                  (max_paper_order_usd args) (live_order_usd args) (execute_live args)
                  (slippage_bps args) (gas_usd args)) markets.

(** The loop over [top]; an exception from the order channel ends it. *)
Fixpoint execute_top (top : list Opp) (args : Args) (run_seq : Z) (gate_state : GateState)
    (broker : MarketOrder -> bool) (w : World) : GateState * World * bool :=
  match top with
  | [] => (gate_state, w, true)
  | opp :: rest =>
      match maybe_execute opp (threshold args) (execute_live args) (confirm_live args)
              (live_order_usd args) run_seq gate_state (min_persist_runs args)
              (signal_cooldown_runs args) (min_improvement_bps args) broker w with
      | (g, w', true) => execute_top rest args run_seq g broker w'
      | (g, w', false) => (g, w', false)
      end
  end.

(** [run_scan], from the evaluation of the filtered markets on.  The
    gate dictionaries are updated in place, so what was written before
    an exception stays written. *)
Definition run_scan (args : Args) (markets : list Priced) (gate_state : GateState)
    (run_seq : Z) (broker : MarketOrder -> bool) (w : World) : GateState * World * bool :=
  let w := write_log w run_start in
  let opportunities := evaluate_all args markets in
  let w := fold_left (fun w o => write_log w (evaluation (slug o))) opportunities w in
  let '(opportunities, streak) :=
    rank_and_stamp (threshold args) opportunities (streak_by_slug gate_state) in
  let gate_state :=
    {| streak_by_slug := streak;
       last_signal_run := last_signal_run gate_state;
       last_signal_edge := last_signal_edge gate_state |} in
  let top := firstn 5 opportunities in
  match execute_top top args run_seq gate_state broker w with
  | (g, w', true) => (g, write_log w' run_summary, true)
  | (g, w', false) => (g, w', false)
  end.

(** What one pass of the [while True] loop of [main] receives from
    outside: the config file as it rewrites the arguments, the priced
    markets (or the exception that ended the cycle before evaluation),
    and the order channel. *)
Record Cycle := {
  apply_runtime_config : Args -> Args;
  priced : result (list Priced);
  order_channel : MarketOrder -> bool
}.

Definition force_paper (args : Args) : Args :=
  if paper_only args then
    {| bankroll_usd := bankroll_usd args; kelly_fraction := kelly_fraction args;
       max_paper_order_usd := max_paper_order_usd args; live_order_usd := live_order_usd args;
       threshold := threshold args; fee_bps := fee_bps args; slippage_bps := slippage_bps args;
       gas_usd := gas_usd args; paper_only := paper_only args; execute_live := false;
       confirm_live := false; min_persist_runs := min_persist_runs args;
       signal_cooldown_runs := signal_cooldown_runs args;
       min_improvement_bps := min_improvement_bps args; loop_secs := loop_secs args;
       max_runs := max_runs args |}
  else args.

(** The loop of [main].  [SystemExit] from [validate_args] is not an
    [Exception]: it ends the process.  Any other exception of the cycle
    is logged as [run_error] and the loop goes on. *)
Fixpoint main_loop (cycles : list Cycle) (args : Args) (gate_state : GateState)
    (runs_ : Z) (w : World) : GateState * World :=
  match cycles with
  | [] => (gate_state, w)
  | cy :: rest =>
      let args := force_paper (apply_runtime_config cy args) in
      if negb (validate_args args) then (gate_state, w)
      else
        let '(g, w', ok) :=
          match priced cy with
          | Raised => (gate_state, w, false)
          | Ok markets => run_scan args markets gate_state (runs_ + 1) (order_channel cy) w
          end in
        let w' := if ok then w' else write_log w' run_error in
        let runs_ := (runs_ + 1)%Z in
        if (loop_secs args <=? 0)%Z then (g, w')
        else if (0 <? max_runs args)%Z && (max_runs args <=? runs_)%Z then (g, w')
        else main_loop rest args g runs_ w'
  end.

(** [main] *)
Definition main (args : Args) (cycles : list Cycle) : GateState * World :=
  let w := {| log := []; submitted := [] |} in
  if negb (validate_args args) then (empty_gate, w)
  else main_loop cycles args empty_gate 0 w.

End Monitor.

(** ** Fair value ([spread_monitor.probability_price_above] and
    [polytrader/models/kelly_gbm.py]) *)

Module FairValue.
Local Open Scope R_scope.

(** [math.erf]: [2 / sqrt(pi)] times the integral of [exp(-t^2)] from 0
    to [x]. *)
Definition gauss (t : R) : R := exp (- (t * t)).

Lemma gauss_continuity : continuity gauss.
Proof. unfold gauss. reg. Qed.

Definition gauss_integrable (a b : R) : Riemann_integrable gauss a b :=
  match Rle_dec a b with
  | left Hab => continuity_implies_RiemannInt Hab (fun x _ => gauss_continuity x)
  | right Hba =>
      RiemannInt_P1
        (continuity_implies_RiemannInt (Rlt_le _ _ (Rnot_le_lt _ _ Hba))
           (fun x _ => gauss_continuity x))
  end.

Definition erf (x : R) : R := 2 / sqrt PI * RiemannInt (gauss_integrable 0 x).

(** [norm_cdf] *)
Definition norm_cdf (x : R) : R := 0.5 * (1 + erf (x / sqrt 2)).

(** [RefMarket], numeric fields. *)
Record RefMarket := {
  spot : R;
  perp : R;
  basis_annual : R;
  sigma_annual : R
}.

(** The last line of [get_kraken_sigma_annual]: the hourly deviation
    annualized, never below 0.05. *)
Definition get_kraken_sigma_annual (sigma_hour : R) : R :=
  Rmax (sigma_hour * sqrt (24 * 365)) 0.05.

(** [get_reference_market], from the three quotes on: the perpetual
    price is [None] when its source cannot be reached, and the spot
    price then stands for it. *)
Definition get_reference_market (spot_px : R) (perp : option R) (sigma_hour : R) : RefMarket :=
  let perp_px := match perp with Some px => px | None => spot_px end in
  {| spot := spot_px;
     perp := perp_px;
     basis_annual := (perp_px / spot_px - 1) * 365;
     sigma_annual := get_kraken_sigma_annual sigma_hour |}.

(** [probability_price_above] *)
Definition probability_price_above (ref : RefMarket) (strike t_years : R) : R :=
  let s := Rmax (spot ref) 1e-9 in
  let sigma := Rmax (sigma_annual ref) 1e-6 in
  let mu := basis_annual ref in
  let z := (ln (s / strike) + (mu - 0.5 * sigma * sigma) * t_years) / (sigma * sqrt t_years) in
  Rmin (Rmax (norm_cdf z) 0) 1.

(** The direction [parse_binary_price_target] and [_parse_target] read
    off the question. *)
Inductive Kind := above_or_hit | below_or_hit.

(** [model_yes] of [evaluate_market]. *)
Definition model_yes (kind : Kind) (prob_above : R) : R :=
  match kind with
  | below_or_hit => 1 - prob_above
  | above_or_hit => prob_above
  end.

(** [p_above] and [p_yes] of [KellyGBMModel.evaluate], for a spot price
    and a volatility as fetched. *)
Definition p_above (spot_ strike sigma t : R) : R :=
  let z := (ln (Rmax spot_ 1e-9 / Rmax strike 1e-9) - 0.5 * sigma * sigma * t)
           / (sigma * sqrt t) in
  Rmin (Rmax (norm_cdf z) 0) 1.

Definition p_yes (kind : Kind) (spot_ strike sigma t : R) : R :=
  match kind with
  | below_or_hit => 1 - p_above spot_ strike sigma t
  | above_or_hit => p_above spot_ strike sigma t
  end.

(** Following the spec's words: the standardized value
    [(ln(S/K) + (mu - sigma^2/2) t) / (sigma sqrt(t))]. *)
Definition z_score (S K sigma mu t : R) : R :=
  (ln (S / K) + (mu - sigma * sigma / 2) * t) / (sigma * sqrt t).

End FairValue.

(** ** The other sizers ([polytrader/sizers/equal_weight.py],
    [plugins/adaptive_risk_sizer.py]) and the registry
    ([polytrader/registry.py]) *)

Module Sizers.
Import Engine.

(** [EqualWeightSizer]: [slots] is floored at 1 by [__init__]. *)
Definition EqualWeightSizer (slots : Z) : BaseSizer :=
  let slots_ := Z.max slots 1 in
  {| sizer_name := "equal_weight";
     size := fun signal cash_ =>
       let order := fmax cash_ 0 / inject_Z slots_ in
       if leb order 0 then None
       else Some {| ord_side := sig_side signal; ord_token_id := sig_token_id signal;
                    order_usd := order; full_kelly_meta := 0 |} |}.

(** [AdaptiveRiskSizer] *)
Definition AdaptiveRiskSizer (risk_fraction max_usd : Q) : BaseSizer :=
  {| sizer_name := "adaptive_risk";
     size := fun signal cash_ =>
       let order := fmin3 (fmax cash_ 0 * fmax risk_fraction 0) max_usd (fmax cash_ 0) in
       if leb order 0 then None
       else Some {| ord_side := sig_side signal; ord_token_id := sig_token_id signal;
                    order_usd := order; full_kelly_meta := 0 |} |}.

(** The keyword arguments a sizer is built from. *)
Inductive SizerKwargs :=
| fixed_kwargs (usd : Q)
| equal_weight_kwargs (slots : Z)
| kelly_kwargs (fraction max_usd : Q).

(** [":" in name]; the colon is character 58. *)
Fixpoint has_colon (name : string) : bool :=
  match name with
  | EmptyString => false
  | String a rest =>
      Ascii.eqb a (Ascii.Ascii false true false true true true false false) || has_colon rest
  end.

(** [make_sizer]: a name with a colon is a plugin path, loaded by
    [_load_from_path]; otherwise the class is looked up in
    [BUILTIN_SIZERS]: an unknown name raises, and so do keyword
    arguments meant for another class. *)
Definition make_sizer (load_from_path : string -> SizerKwargs -> result BaseSizer)
    (name : string) (kwargs : SizerKwargs) : result BaseSizer :=
  if has_colon name then load_from_path name kwargs
  else if String.eqb name "fixed" then
    match kwargs with fixed_kwargs usd => Ok (FixedSizer usd) | _ => Raised end
  else if String.eqb name "equal_weight" then
    match kwargs with equal_weight_kwargs slots => Ok (EqualWeightSizer slots) | _ => Raised end
  else if String.eqb name "kelly" then
    match kwargs with
    | kelly_kwargs fraction max_usd => Ok (KellySizer (Kelly.init fraction max_usd))
    | _ => Raised
    end
  else Raised.

(** [AlwaysPassModel] *)
Definition AlwaysPassModel : BaseModel :=
  {| model_name := "always_pass"; evaluate := fun _ => Ok None |}.

End Sizers.

(** ** Marking the open positions ([engine.mark_open_positions]) and the
    figures of [cli.account] and [cli._experiment_metrics] *)

Module Account.
Import Ledger.

(** An entry of the list [mark_open_positions] returns: the trade row
    and the four fields added to it. *)
Record Position := {
  pos_trade : Trade;
  mark_price : Q;
  mark_value : Q;
  unrealized_pnl : Q;
  unrealized_pnl_pct : Q
}.

(** The loop over the open rows.  [fetch_midpoint] answers [Ok None]
    when the request is refused or carries no number, and raises on a
    transport error. *)
Fixpoint mark_rows (fetch_midpoint : string -> result (option Q)) (rows : list Trade)
    : result (list Position) :=
  match rows with
  | [] => Ok []
  | r :: rest =>
      match fetch_midpoint (token_id r) with
      | Raised => Raised
      | Ok None => mark_rows fetch_midpoint rest
      | Ok (Some mid) =>
          let current_value := trade_shares r * mid in
          let notional := notional_usd r in
          match mark_rows fetch_midpoint rest with
          | Raised => Raised
          | Ok out =>
              Ok ({| pos_trade := r; mark_price := mid; mark_value := current_value;
                     unrealized_pnl := current_value - notional;
                     unrealized_pnl_pct :=
                       (current_value - notional) / fmax notional (1 # 1000000000) |} :: out)
          end
      end
  end.

(** [mark_open_positions], up to the order of the rows. *)
Definition mark_open_positions (c : Conn) (fetch_midpoint : string -> result (option Q))
    : result (list Position) :=
  mark_rows fetch_midpoint (list_open_trades c).

(** Python's [sum]. *)
Definition sum (xs : list Q) : Q := fold_left Qplus xs 0.

(** The payload of the [account] command. *)
Record AccountOut := {
  out_cash : Q;
  out_starting_bankroll : Q;
  out_open_positions : nat;
  positions_mark_value : Q;
  equity : Q;
  pnl : Q
}.

(** [cli.account]; any exception makes the command fail. *)
Definition account_cmd (c : Conn) (fetch_midpoint : string -> result (option Q))
    : result AccountOut :=
  match get_account c with
  | Raised => Raised
  | Ok acct =>
      match mark_open_positions c fetch_midpoint with
      | Raised => Raised
      | Ok positions =>
          let equity_ := cash acct + sum (map mark_value positions) in
          Ok {| out_cash := cash acct;
                out_starting_bankroll := starting_bankroll acct;
                out_open_positions := length positions;
                positions_mark_value := sum (map mark_value positions);
                equity := equity_;
                pnl := equity_ - starting_bankroll acct |}
      end
  end.

(** The numeric fields of [_experiment_metrics]. *)
Record Metrics := {
  met_cash : Q;
  met_starting_bankroll : Q;
  met_realized_pnl : Q;
  met_unrealized_pnl : Q;
  met_closed_trades : nat;
  met_open_positions : nat;
  win_rate : Q;
  signal_count : nat;
  met_equity : Q;
  score : Q
}.

(** [float(r.get("realized_pnl") or 0.0)] *)
Definition realized_or_zero (t : Trade) : Q :=
  match realized_pnl t with Some x => x | None => 0 end.

(** [_experiment_metrics]; [list_runs] reads the 500 latest runs. *)
Definition experiment_metrics (c : Conn) (fetch_midpoint : string -> result (option Q))
    : result Metrics :=
  match get_account c with
  | Raised => Raised
  | Ok acct =>
      let closed := list_closed_trades c in
      match mark_open_positions c fetch_midpoint with
      | Raised => Raised
      | Ok open_pos =>
          let runs_ := firstn 500 (rev (runs (cur c))) in
          let realized := sum (map realized_or_zero closed) in
          let unrealized := sum (map unrealized_pnl open_pos) in
          let wins := length (List.filter (fun r => ltb 0 (realized_or_zero r)) closed) in
          let win_rate_ :=
            match closed with
            | [] => 0
            | _ => inject_Z (Z.of_nat wins) / inject_Z (Z.of_nat (length closed))
            end in
          let signal_count_ := fold_left Nat.add (map signals runs_) 0%nat in
          Ok {| met_cash := cash acct;
                met_starting_bankroll := starting_bankroll acct;
                met_realized_pnl := realized;
                met_unrealized_pnl := unrealized;
                met_closed_trades := length closed;
                met_open_positions := length open_pos;
                win_rate := win_rate_;
                signal_count := signal_count_;
                met_equity := cash acct + unrealized;
                score := realized + (1 # 2) * unrealized + 100 * win_rate_
                         + (1 # 10) * inject_Z (Z.of_nat signal_count_) |}
      end
  end.

End Account.

(** * Properties *)

(** ** Comparisons, [min] and [max] *)

Lemma leb_true x y : leb x y = true <-> x <= y.
Proof.
  unfold leb. destruct (Qlt_le_dec y x) as [H|H]; split; intros; try easy.
  exfalso. lra.
Qed.

Lemma leb_false x y : leb x y = false <-> y < x.
Proof.
  unfold leb. destruct (Qlt_le_dec y x) as [H|H]; split; intros; try easy.
  exfalso. lra.
Qed.

Lemma ltb_true x y : ltb x y = true <-> x < y.
Proof.
  unfold ltb. destruct (Qlt_le_dec x y) as [H|H]; split; intros; try easy.
  exfalso. lra.
Qed.

Lemma ltb_false x y : ltb x y = false <-> y <= x.
Proof.
  unfold ltb. destruct (Qlt_le_dec x y) as [H|H]; split; intros; try easy.
  exfalso. lra.
Qed.

Lemma fmax_spec a b : (a < b /\ fmax a b = b) \/ (b <= a /\ fmax a b = a).
Proof. unfold fmax. destruct (Qlt_le_dec a b); auto. Qed.

Lemma fmin_spec a b : (b < a /\ fmin a b = b) \/ (a <= b /\ fmin a b = a).
Proof. unfold fmin. destruct (Qlt_le_dec b a); auto. Qed.

(** Case analysis on every [fmin]/[fmax] of the goal. *)
Ltac minmax :=
  unfold fmin3 in *;
  repeat match goal with
  | |- context [fmax ?a ?b] =>
      let H := fresh in let E := fresh in
      destruct (fmax_spec a b) as [[H E]|[H E]]; rewrite E in *
  | |- context [fmin ?a ?b] =>
      let H := fresh in let E := fresh in
      destruct (fmin_spec a b) as [[H E]|[H E]]; rewrite E in *
  end.

Lemma fmax_lb_l a b : a <= fmax a b.
Proof. minmax; lra. Qed.

Lemma fmax_lb_r a b : b <= fmax a b.
Proof. minmax; lra. Qed.

Lemma fmin_ub_l a b : fmin a b <= a.
Proof. minmax; lra. Qed.

Lemma fmin_ub_r a b : fmin a b <= b.
Proof. minmax; lra. Qed.


(** A list without repeated keys holds at most one element per key. *)
Lemma keys_injective {A B : Type} (key : A -> B) (l : list A) :
  List.NoDup (map key l) ->
  forall a b, In a l -> In b l -> key a = key b -> a = b.
Proof.
  induction l as [|x rest IH]; intros Hnd a b Ha Hb Hk; [destruct Ha|].
  simpl in Hnd. apply NoDup_cons_iff in Hnd. destruct Hnd as [Hnot Hnd].
  destruct Ha as [<-|Ha], Hb as [<-|Hb]; auto.
  - exfalso. apply Hnot. rewrite Hk. now apply in_map.
  - exfalso. apply Hnot. rewrite <- Hk. now apply in_map.
Qed.

(** ** Kelly *)

Module KellyProps.
Import Kelly.

Lemma clamp_q_range m : 1 # 1000000 <= clamp_q m /\ clamp_q m <= 999999 # 1000000.
Proof. unfold clamp_q. minmax; lra. Qed.

Lemma clamp_p_le m q : 0 <= q -> q <= 1 -> m <= q -> clamp_p m <= q.
Proof. unfold clamp_p. intros. minmax; lra. Qed.

Lemma full_kelly_range m p : 0 <= full_kelly m p /\ full_kelly m p <= 1.
Proof. unfold full_kelly. minmax; lra. Qed.

Lemma kelly_full_range m p : 0 <= kelly_full m p /\ kelly_full m p <= 1.
Proof. unfold kelly_full. cbv zeta. minmax; lra. Qed.

Lemma ratio_nonpos a b : a <= 0 -> 0 < b -> a / b <= 0.
Proof.
  intros Ha Hb. unfold Qdiv.
  assert (0 < / b) by (apply Qinv_lt_0_compat; exact Hb).
  nra.
Qed.

Lemma full_kelly_zero m p : p <= clamp_q m -> full_kelly m p == 0.
Proof.
  intros H. unfold full_kelly. cbv zeta.
  destruct (clamp_q_range m) as [Hl Hu].
  assert (Hp : clamp_p p <= clamp_q m) by (apply clamp_p_le; lra).
  assert (Hr : (clamp_p p - clamp_q m) / (1 - clamp_q m) <= 0)
    by (apply ratio_nonpos; lra).
  minmax; lra.
Qed.

Lemma kelly_full_zero m p : p <= clamp_q m -> kelly_full m p == 0.
Proof.
  intros H. unfold kelly_full. cbv zeta.
  destruct (clamp_q_range m) as [Hl Hu].
  assert (Hp : clamp_p p <= clamp_q m) by (apply clamp_p_le; lra).
  assert (Hr : (clamp_p p - clamp_q m) / fmax (1 - clamp_q m) (1 # 1000000) <= 0).
  { apply ratio_nonpos; [lra|]. minmax; lra. }
  minmax; lra.
Qed.

Lemma size_none_of_zero self s cash :
  full_kelly (market_price s) (model_price s) == 0 -> size self s cash = None.
Proof.
  intros H. unfold size. cbv zeta.
  set (o := fmin3 _ _ _).
  assert (Ho : o <= 0).
  { subst o. unfold fmin3.
    eapply Qle_trans; [apply fmin_ub_l|].
    eapply Qle_trans; [apply fmin_ub_l|].
    rewrite H. lra. }
  apply leb_true in Ho. now rewrite Ho.
Qed.

(** C6. For every market price and model probability, the full Kelly
    fraction computed by [KellySizer.size] and by [evaluate_market] lies
    in [0,1]; and whenever the model probability is at most the clamped
    market price [q] the fraction is 0 and the sizer returns no order. *)
Theorem kelly_fraction_bounds :
  forall (market_px model_px : Q),
    (0 <= full_kelly market_px model_px <= 1) /\
    (0 <= kelly_full market_px model_px <= 1) /\
    (model_px <= clamp_q market_px ->
       full_kelly market_px model_px == 0 /\
       kelly_full market_px model_px == 0 /\
       forall self s cash,
         market_price s = market_px -> model_price s = model_px ->
         size self s cash = None).
Proof.
  intros m p. split; [apply full_kelly_range|]. split; [apply kelly_full_range|].
  intros H. split; [now apply full_kelly_zero|]. split; [now apply kelly_full_zero|].
  intros self s cash Hm Hp. apply size_none_of_zero.
  rewrite Hm, Hp. now apply full_kelly_zero.
Qed.

Lemma kelly_fraction_bounds_witness :
  full_kelly (1 # 2) (4 # 10) == 0 /\ kelly_full (1 # 2) (4 # 10) == 0.
Proof.
  destruct (proj2 (proj2 (kelly_fraction_bounds (1 # 2) (4 # 10)))) as (H1 & H2 & _).
  - vm_compute. discriminate.
  - split; assumption.
Defined.

End KellyProps.

(** ** Order-book walk *)

Module FillProps.
Import Fill.

Definition start (usd_amount : Q) : Walk :=
  {| remaining_usd := usd_amount; spent := 0; acquired := 0; levels := 0 |}.

(** The result in terms of the walk, for a request that returned one. *)
Lemma simulate_buy_some asks usd r :
  simulate_buy (Some asks) usd = Some r ->
  let w := walk asks (start usd) in
  0 < usd /\ 0 < acquired w /\ 0 < spent w /\
  r = {| avg_price := spent w / acquired w;
         shares := acquired w;
         spent_usd := spent w;
         levels_used := levels w;
         slippage_bps :=
           ((spent w / acquired w) / fmax (top_ask asks (spent w / acquired w)) eps - 1) * 10000 |}.
Proof.
  unfold simulate_buy. fold (start usd).
  destruct (leb usd 0) eqn:Husd; [discriminate|].
  destruct (leb (acquired (walk asks (start usd))) 0 || leb (spent (walk asks (start usd))) 0) eqn:Hw;
    [discriminate|].
  intros H. injection H as <-.
  apply orb_false_iff in Hw. destruct Hw as [Ha Hs].
  apply leb_false in Husd. apply leb_false in Ha. apply leb_false in Hs.
  cbv zeta. repeat split; assumption.
Qed.

#[local] Set Warnings "-inexact-float".

Lemma walk_skips64 asks : forall w,
  Forall (fun l => Binary64.consumable l = false) asks -> Binary64.walk asks w = w.
Proof.
  induction asks as [|l rest IH]; intros w Hall; simpl; [reflexivity|].
  inversion Hall as [|? ? Hl Hrest]; subst. unfold Binary64.consumable in Hl.
  destruct (Binary64.price l) as [px|]; [|now apply IH].
  destruct (Binary64.size l) as [sz|]; [|now apply IH].
  destruct (PrimFloat.leb px 0 || PrimFloat.leb sz 0); [now apply IH | discriminate].
Qed.

(** Asks of 7 shares at 0.1 and 1000 shares at 0.5. *)
Definition thin_top : option (list Binary64.Level) :=
  Some [Binary64.lvl 0.1 7; Binary64.lvl 0.5 1000].

(** C7, evaluated on the code in binary64.  A request of $1.8 on asks
    of 7 shares at 0.1 and 1000 shares at 0.5 takes 0.1 * 7 =
    0.7000000000000001 from the first level and 1.1 from the second:
    the fill reports [spent_usd = 1.8000000000000003], more than the
    $1.8 requested.  With $1.8 of cash and a [FixedSizer] of $50 the
    order is $1.8, it passes the test [order_usd > cash] of
    [scan_once], and the cash handed to [update_cash] is negative.  In
    exact arithmetic the same fill spends $1.8.  What the claim says of
    the empty results holds in binary64 as well: nothing is returned for
    a request that is not positive, for a missing book, and for a book
    without a level of positive price and size. *)
Theorem overspend_in_binary64 :
  match Binary64.simulate_buy thin_top 1.8 with
  | Some r =>
      PrimFloat.ltb 1.8 (Binary64.spent_usd r) = true /\
      PrimFloat.eqb (Binary64.spent_usd r) 1.8000000000000003 = true /\
      Binary64.levels_used r = 2%nat
  | None => False
  end /\
  match Binary64.debit 50 1.8 thin_top with
  | Some cash => PrimFloat.ltb cash 0 = true
  | None => False
  end /\
  match simulate_buy (Some [lvl (1 # 10) 7; lvl (1 # 2) 1000]) (18 # 10) with
  | Some r => spent_usd r == 18 # 10
  | None => False
  end /\
  (forall book usd, PrimFloat.leb usd 0 = true -> Binary64.simulate_buy book usd = None) /\
  (forall usd, Binary64.simulate_buy None usd = None) /\
  (forall asks usd,
     Forall (fun l => Binary64.consumable l = false) asks ->
     Binary64.simulate_buy (Some asks) usd = None).
Proof.
  split; [vm_compute; repeat split|].
  split; [vm_compute; reflexivity|].
  split; [vm_compute; reflexivity|].
  split; [|split].
  - intros [asks|] usd H; [|reflexivity]. unfold Binary64.simulate_buy. now rewrite H.
  - reflexivity.
  - intros asks usd H. unfold Binary64.simulate_buy.
    destruct (PrimFloat.leb usd 0); [reflexivity|].
    rewrite (walk_skips64 asks _ H). reflexivity.
Qed.

(** The two-level book of the design notes: $50 buys 100 shares at 0.40
    and 10 / 0.45 shares at 0.45, 1100/9 shares in all at an average of
    9/22, with positive slippage against the top price. *)
Example two_level_fill :
  match simulate_buy (Some [lvl (4 # 10) 100; lvl (45 # 100) 50]) 50 with
  | Some r =>
      spent_usd r == 50 /\ shares r == 1100 # 9 /\ avg_price r == 9 # 22 /\
      levels_used r = 2%nat /\ 0 < slippage_bps r
  | None => False
  end.
Proof. vm_compute. repeat split; congruence. Qed.

(** The book whose first entry is an empty level at 0.30 and whose
    second offers 100 shares at 0.40. *)
Definition stale_top_book : list Level := [lvl (3 # 10) 0; lvl (4 # 10) 100].

(** C9, as stated, fails: buying $10 from [stale_top_book] fills at 0.40,
    the only level the walk can consume, so the claimed slippage is 0;
    the reported slippage is measured against the skipped 0.30 entry. *)
Lemma slippage_baseline_counterexample :
  match simulate_buy (Some stale_top_book) 10 with
  | Some r =>
      avg_price r == 4 # 10 /\
      first_consumable_price stale_top_book = Some (4 # 10) /\
      match claimed_slippage_bps stale_top_book r with
      | Some s => s == 0 /\ ~ slippage_bps r == s
      | None => False
      end /\
      slippage_bps r == 10000 # 3
  | None => False
  end.
Proof. vm_compute. repeat split; discriminate. Qed.

(** C9, amended. The reported slippage is
    [((avg_price / max(P_top, 1e-9)) - 1) * 10000] where [P_top] is the
    price of the first entry of the book as given (the average price
    itself when that price cannot be read, which gives slippage 0 for an
    average of at least 1e-9), whether or not the walk
    could consume that entry; when the first entry has positive price
    (at least 1e-9) and size, [P_top] is the price of the first
    consumable level and the claimed formula holds. *)
Theorem slippage_baseline :
  forall asks usd r,
    simulate_buy (Some asks) usd = Some r ->
    slippage_bps r == ((avg_price r / fmax (top_ask asks (avg_price r)) eps) - 1) * 10000 /\
    (forall l rest px,
       asks = l :: rest -> price l = Some px -> top_ask asks (avg_price r) = px) /\
    (forall l rest,
       asks = l :: rest -> price l = None -> eps <= avg_price r -> slippage_bps r == 0) /\
    (forall l rest px,
       asks = l :: rest -> consumable l = true -> price l = Some px -> eps <= px ->
       first_consumable_price asks = Some px /\
       slippage_bps r == ((avg_price r / px) - 1) * 10000).
Proof.
  intros asks usd r H. apply simulate_buy_some in H. cbv zeta in H.
  destruct H as (Husd & Ha & Hs & ->). simpl.
  set (avg := spent (walk asks (start usd)) / acquired (walk asks (start usd))).
  assert (Havg : 0 < avg).
  { unfold avg, Qdiv.
    assert (0 < / acquired (walk asks (start usd))) by (apply Qinv_lt_0_compat; exact Ha).
    nra. }
  split; [reflexivity|]. split; [|split].
  - intros l rest px -> Hp. simpl. now rewrite Hp.
  - intros l rest -> Hp Hge. simpl. rewrite Hp.
    fold avg in Hge. minmax.
    + exfalso. lra.
    + field. lra.
  - intros l rest px -> Hc Hp Hpx. simpl. rewrite Hc, Hp. split; [reflexivity|].
    minmax.
    + exfalso. lra.
    + reflexivity.
Qed.

Lemma slippage_baseline_witness :
  match simulate_buy (Some [lvl (4 # 10) 100; lvl (45 # 100) 50]) 50 with
  | Some r => slippage_bps r ==
              ((avg_price r / fmax (top_ask [lvl (4 # 10) 100; lvl (45 # 100) 50] (avg_price r)) eps) - 1) * 10000
  | None => False
  end.
Proof.
  destruct (simulate_buy (Some [lvl (4 # 10) 100; lvl (45 # 100) 50]) 50) as [r|] eqn:E.
  - exact (proj1 (slippage_baseline _ _ _ E)).
  - vm_compute in E. discriminate.
Defined.

End FillProps.

(** ** Ledger: settlement *)

Module LedgerProps.
Import Ledger.

(** The rows [close_market_positions] selects. *)
Definition selected (slug : string) (t : Trade) : bool :=
  is_open (status t) && String.eqb (market_slug t) slug.

(** Following the spec's words: the held side matches the resolved
    outcome. *)
Definition side_matches (side_ : string) (outcome_yes : bool) : bool :=
  (String.eqb side_ "buy_yes" && outcome_yes) || (String.eqb side_ "buy_no" && negb outcome_yes).

Definition spec_payout (side_ : string) (outcome_yes : bool) : Q :=
  if side_matches side_ outcome_yes then 1 else 0.

(** Following the spec's words: what settling does to one trade. *)
Definition settle_one (slug : string) (outcome_yes : bool) (t : Trade) : Trade :=
  if selected slug t then
    closed_row (spec_payout (side t) outcome_yes)
      (trade_shares t * spec_payout (side t) outcome_yes - notional_usd t) t
  else t.

(** Following the code's return value: what settling reports for one
    trade, the row as read with the payout per share and the realized
    PnL filled in. *)
Definition reported (outcome_yes : bool) (t : Trade) : Trade :=
  returned_row (spec_payout (side t) outcome_yes)
    (trade_shares t * spec_payout (side t) outcome_yes - notional_usd t) t.

(** The cash that settling credits: shares times payout per share over
    the selected trades. *)
Fixpoint credited (slug : string) (outcome_yes : bool) (ts : list Trade) : Q :=
  match ts with
  | [] => 0
  | t :: rest =>
      (if selected slug t then trade_shares t * spec_payout (side t) outcome_yes else 0)
      + credited slug outcome_yes rest
  end.

Lemma payout_per_share_spec s o : payout_per_share s o = spec_payout s o.
Proof.
  unfold payout_per_share, spec_payout, side_matches.
  destruct (String.eqb s "buy_yes") eqn:Ey.
  - apply String.eqb_eq in Ey. subst s. destruct o; reflexivity.
  - destruct (String.eqb s "buy_no"); destruct o; reflexivity.
Qed.

(** The UPDATE of one row, seen on a single trade. *)
Definition touch (outcome_yes : bool) (row t : Trade) : Trade :=
  if Nat.eqb (trade_id t) (trade_id row) then
    closed_row (payout_per_share (side row) outcome_yes)
      (trade_shares row * payout_per_share (side row) outcome_yes - notional_usd row) t
  else t.

Lemma settle_rows_unfold rows o : forall c cash_ closed,
  settle_rows rows o c cash_ closed =
  ({| cur := with_trades
               (map (fun t => fold_left (fun u row => touch o row u) rows t) (trades (cur c)))
               (cur c);
      durable := durable c |},
   fold_left (fun a row => a + trade_shares row * payout_per_share (side row) o) rows cash_,
   closed ++ map (fun row =>
                    returned_row (payout_per_share (side row) o)
                      (trade_shares row * payout_per_share (side row) o - notional_usd row) row)
               rows).
Proof.
  induction rows as [|r rest IH]; intros c cash_ closed; simpl.
  - rewrite map_id, app_nil_r. destruct c as [[a rs ts] dur]. reflexivity.
  - rewrite IH. simpl. f_equal; [f_equal|].
    + f_equal. unfold with_trades, update_trade_closed. simpl. f_equal.
      rewrite map_map. apply map_ext. intros t. reflexivity.
    + now rewrite <- app_assoc.
Qed.

Lemma ids_injective ts :
  List.NoDup (map trade_id ts) ->
  forall a b, In a ts -> In b ts -> trade_id a = trade_id b -> a = b.
Proof. apply keys_injective. Qed.

Lemma touch_self_twice o t : touch o t (touch o t t) = touch o t t.
Proof. unfold touch. rewrite Nat.eqb_refl. simpl. now rewrite Nat.eqb_refl. Qed.

(** Rows that are all copies of [t] or carry another id leave a trade
    already touched as it is, and touch an untouched one at most once. *)
Lemma fold_touch o t rows :
  (forall r, In r rows -> trade_id r = trade_id t -> r = t) ->
  fold_left (fun u row => touch o row u) rows (touch o t t) = touch o t t /\
  fold_left (fun u row => touch o row u) rows t =
    if existsb (fun r => Nat.eqb (trade_id r) (trade_id t)) rows then touch o t t else t.
Proof.
  induction rows as [|r rest IH]; intros Hrows; simpl; [split; reflexivity|].
  destruct IH as [IH1 IH2]; [intros r' Hr'; apply Hrows; now right|].
  destruct (Nat.eqb (trade_id r) (trade_id t)) eqn:E.
  - apply Nat.eqb_eq in E. assert (r = t) by (apply Hrows; [now left|exact E]). subst r.
    rewrite touch_self_twice. simpl. split; exact IH1.
  - assert (Hn : forall u, trade_id u = trade_id t -> touch o r u = u).
    { intros u Hu. unfold touch. rewrite Hu.
      rewrite Nat.eqb_sym in E. now rewrite E. }
    rewrite (Hn t eq_refl). rewrite Hn; [|unfold touch; rewrite Nat.eqb_refl; reflexivity].
    simpl. split; assumption.
Qed.

Lemma settled_pointwise slug o ts t :
  List.NoDup (map trade_id ts) -> In t ts ->
  fold_left (fun u row => touch o row u) (List.filter (selected slug) ts) t = settle_one slug o t.
Proof.
  intros Hnd Ht.
  destruct (fold_touch o t (List.filter (selected slug) ts)) as [_ H].
  { intros r Hr Hid. apply filter_In in Hr. destruct Hr as [Hr _].
    now apply (ids_injective ts Hnd). }
  rewrite H. unfold settle_one.
  destruct (selected slug t) eqn:Hsel.
  - assert (Hex : existsb (fun r => Nat.eqb (trade_id r) (trade_id t))
                    (List.filter (selected slug) ts) = true).
    { apply existsb_exists. exists t. split; [|apply Nat.eqb_refl].
      apply filter_In. now split. }
    rewrite Hex. unfold touch. rewrite Nat.eqb_refl.
    now rewrite payout_per_share_spec.
  - destruct (existsb _ _) eqn:Hex; [|reflexivity].
    apply existsb_exists in Hex. destruct Hex as (r & Hr & Hid).
    apply filter_In in Hr. destruct Hr as [Hr Hsr]. apply Nat.eqb_eq in Hid.
    assert (r = t) by now apply (ids_injective ts Hnd). subst r. congruence.
Qed.

Lemma credited_fold slug o ts : forall cash_,
  fold_left (fun a row => a + trade_shares row * payout_per_share (side row) o)
    (List.filter (selected slug) ts) cash_ == cash_ + credited slug o ts.
Proof.
  induction ts as [|t rest IH]; intros cash_; simpl; [lra|].
  destruct (selected slug t); simpl.
  - rewrite IH, payout_per_share_spec. lra.
  - rewrite IH. lra.
Qed.

(** [close_market_positions] in one step, on a table with unique ids. *)
Lemma close_market_positions_unfold c slug o a :
  List.NoDup (map trade_id (trades (cur c))) ->
  account (cur c) = Some a ->
  exists cash', exists closed,
    cash' == cash a + credited slug o (trades (cur c)) /\
    closed = map (reported o) (List.filter (selected slug) (trades (cur c))) /\
    close_market_positions c slug o =
      (let d := {| account := Some {| starting_bankroll := starting_bankroll a; cash := cash' |};
                   runs := runs (cur c);
                   trades := map (settle_one slug o) (trades (cur c)) |} in
       {| cur := d; durable := d :: d :: durable c |}, Ok closed).
Proof.
  intros Hnd Ha. unfold close_market_positions, get_account. rewrite Ha.
  fold (selected slug). rewrite settle_rows_unfold.
  eexists. eexists. split; [apply credited_fold|]. split; [reflexivity|].
  cbv zeta. unfold update_cash, commit, exec, with_account, with_trades. simpl. rewrite Ha.
  assert (Hts : map (fun t => fold_left (fun u row => touch o row u)
                     (List.filter (selected slug) (trades (cur c))) t) (trades (cur c))
                = map (settle_one slug o) (trades (cur c))).
  { apply map_ext_in. intros t Ht. now apply settled_pointwise. }
  rewrite Hts. f_equal. f_equal.
  apply map_ext. intros t. unfold reported. now rewrite payout_per_share_spec.
Qed.

(** An account of $1000 holding one open [buy_yes] trade of 200 shares
    bought for $80 on market ["btc-120k"], next to an open trade on
    another market. *)
Definition sample_trade (id : nat) (slug side_ : string) (sh notional : Q) : Trade :=
  {| trade_id := id; run_id := 1; market_id := "m"; market_slug := slug; side := side_;
     token_id := "t"; entry_price := notional / sh; trade_shares := sh;
     notional_usd := notional; trade_model_price := 1 # 2; trade_edge := 1 # 10;
     trade_confidence := 1; status := Open; exit_price := None; realized_pnl := None |}.

Definition sample_db : Db :=
  {| account := Some {| starting_bankroll := 1000; cash := 890 |};
     runs := [];
     trades := [sample_trade 1 "btc-120k" "buy_yes" 200 80;
                sample_trade 2 "eth-5k" "buy_no" 60 30] |}.

(** The closed rows of a settlement, as (payout, realized PnL). *)
Definition payouts (r : Conn * result (list Trade)) : list (option Q * option Q) :=
  match snd r with
  | Ok closed =>
      map (fun t => (option_map (fun x => Qred (trade_shares t * x)) (exit_price t),
                     option_map Qred (realized_pnl t))) closed
  | Raised => []
  end.

(** C2. Settling market [slug] with a final outcome, on a table whose
    ids are unique and with the account present: every trade that is
    open on [slug] gets payout per share 1 if its side matches the
    outcome and 0 otherwise, realized PnL [shares * payout - notional]
    and status closed; all other trades are unchanged; cash is credited
    by the sum of [shares * payout]; the change is committed as one
    state.  The list returned holds, for each such trade, the row as it
    was read, with the same payout per share and realized PnL filled
    in and the status as read.  A [buy_yes] trade of 200 shares and $80
    notional pays $200 with PnL $120 when settled yes, and $0 with PnL
    -$80 when settled no. *)
Theorem settlement_postcondition :
  (forall c slug outcome_yes a,
     List.NoDup (map trade_id (trades (cur c))) ->
     account (cur c) = Some a ->
     exists c' closed a',
       close_market_positions c slug outcome_yes = (c', Ok closed) /\
       trades (cur c') = map (settle_one slug outcome_yes) (trades (cur c)) /\
       closed = map (reported outcome_yes)
                  (List.filter (selected slug) (trades (cur c))) /\
       (forall t, In t (trades (cur c)) -> selected slug t = true ->
          status (reported outcome_yes t) = Open /\
          exit_price (reported outcome_yes t) = exit_price (settle_one slug outcome_yes t) /\
          realized_pnl (reported outcome_yes t)
            = realized_pnl (settle_one slug outcome_yes t)) /\
       account (cur c') = Some a' /\
       starting_bankroll a' = starting_bankroll a /\
       cash a' == cash a + credited slug outcome_yes (trades (cur c)) /\
       on_disk c' = cur c' /\
       (forall t, In t (trades (cur c)) -> selected slug t = true ->
          let t' := settle_one slug outcome_yes t in
          status t' = Closed /\
          exit_price t' = Some (if side_matches (side t) outcome_yes then 1 else 0) /\
          realized_pnl t' =
            Some (trade_shares t * (if side_matches (side t) outcome_yes then 1 else 0)
                  - notional_usd t)) /\
       (forall t, In t (trades (cur c)) -> selected slug t = false ->
          settle_one slug outcome_yes t = t)) /\
  payouts (close_market_positions (connect sample_db) "btc-120k" true) = [(Some 200, Some 120)] /\
  payouts (close_market_positions (connect sample_db) "btc-120k" false) = [(Some 0, Some (-80))].
Proof.
  split; [|split; reflexivity].
  intros c slug o a Hnd Ha.
  destruct (close_market_positions_unfold c slug o a Hnd Ha) as (cash' & closed & Hc & Hcl & E).
  cbv zeta in E.
  eexists. exists closed. eexists. split; [exact E|]. simpl.
  split; [reflexivity|]. split; [exact Hcl|].
  split.
  { intros t Ht Hs. unfold settle_one, reported. rewrite Hs. simpl.
    unfold selected in Hs. apply andb_true_iff in Hs. destruct Hs as [Hs _].
    destruct (status t); [repeat split | discriminate]. }
  split; [reflexivity|]. simpl.
  split; [reflexivity|]. split; [exact Hc|]. split; [reflexivity|]. split.
  - intros t Ht Hs. unfold settle_one. rewrite Hs. simpl. repeat split.
  - intros t Ht Hs. unfold settle_one. now rewrite Hs.
Qed.

Lemma settlement_postcondition_witness :
  exists c' closed a',
    close_market_positions (connect sample_db) "btc-120k" true = (c', Ok closed) /\
    account (cur c') = Some a' /\
    cash a' == 890 + credited "btc-120k" true (trades sample_db).
Proof.
  destruct (proj1 settlement_postcondition (connect sample_db) "btc-120k" true
              {| starting_bankroll := 1000; cash := 890 |})
    as (c' & closed & a' & E & _ & _ & _ & Ha & _ & Hc & _).
  - simpl. repeat constructor; simpl; intuition congruence.
  - reflexivity.
  - exists c', closed, a'. repeat split; assumption.
Defined.

End LedgerProps.

(** ** Ledger: cash conservation over scans and settlements *)

Module EngineProps.
Import Ledger Engine LedgerProps.

Fixpoint spent_total (rows : list Placed) : Q :=
  match rows with
  | [] => 0
  | row :: rest => spent_usd (p_fill row) + spent_total rest
  end.

(** Ids as AUTOINCREMENT hands them out on a table nothing is deleted
    from. *)
Definition wf (ts : list Trade) : Prop := map trade_id ts = seq 1 (length ts).

Definition balanced (bankroll : Q) (d : Db) : Prop :=
  exists a, account d = Some a /\ starting_bankroll a = bankroll /\
            cash a == bankroll + realized_total (trades d) - open_notional (trades d).

(** The state between two commands. *)
Definition good (bankroll : Q) (c : Conn) : Prop :=
  wf (trades (cur c)) /\ on_disk c = cur c /\ balanced bankroll (cur c).

Lemma wf_NoDup ts : wf ts -> List.NoDup (map trade_id ts).
Proof. unfold wf. intros ->. apply List.seq_NoDup. Qed.

Lemma spent_total_app r1 r2 : spent_total (r1 ++ r2) == spent_total r1 + spent_total r2.
Proof. induction r1 as [|r rest IH]; simpl; [lra | rewrite IH; lra]. Qed.

Lemma open_notional_app t1 t2 : open_notional (t1 ++ t2) == open_notional t1 + open_notional t2.
Proof. induction t1 as [|t rest IH]; simpl; [lra | rewrite IH; lra]. Qed.

Lemma realized_total_app t1 t2 : realized_total (t1 ++ t2) == realized_total t1 + realized_total t2.
Proof. induction t1 as [|t rest IH]; simpl; [lra | rewrite IH; lra]. Qed.

(** The order loop leaves the trades alone, keeps the persisted cash
    equal to the running cash, and debits exactly what the fills spent. *)
Lemma place_orders_ok model sizer fetch_book snapshots :
  forall c cash_ n rows c' cash' n' rows' b,
    place_orders model sizer fetch_book snapshots c cash_ n rows = (c', Ok (cash', n', rows')) ->
    account (cur c) = Some {| starting_bankroll := b; cash := cash_ |} ->
    on_disk c = cur c ->
    account (cur c') = Some {| starting_bankroll := b; cash := cash' |} /\
    trades (cur c') = trades (cur c) /\
    on_disk c' = cur c' /\
    cash' + spent_total rows' == cash_ + spent_total rows.
Proof.
  induction snapshots as [|snap rest IH]; intros c cash_ n rows c' cash' n' rows' b H Ha Hd.
  - simpl in H. injection H as <- <- <- <-. repeat split; assumption.
  - simpl in H.
    destruct (evaluate model snap) as [[sig|]|]; [| now apply (IH _ _ _ _ _ _ _ _ _ H) | discriminate].
    destruct (size sizer sig cash_) as [order|]; [| now apply (IH _ _ _ _ _ _ _ _ _ H)].
    destruct (ltb cash_ (order_usd order)); [now apply (IH _ _ _ _ _ _ _ _ _ H)|].
    destruct (fetch_book (ord_token_id order)) as [[book|]|];
      [| now apply (IH _ _ _ _ _ _ _ _ _ H) | discriminate].
    destruct (Fill.simulate_buy book (order_usd order)) as [fill|];
      [| now apply (IH _ _ _ _ _ _ _ _ _ H)].
    apply (IH _ _ _ _ _ _ _ _ b) in H.
    + destruct H as (H1 & H2 & H3 & H4). repeat split; try assumption.
      rewrite H4, spent_total_app. simpl. lra.
    + simpl. now rewrite Ha.
    + reflexivity.
Qed.

Lemma insert_trades_ok run rows :
  forall c ids c' ids',
    insert_trades c run rows ids = (c', ids') ->
    wf (trades (cur c)) -> on_disk c = cur c ->
    account (cur c') = account (cur c) /\
    wf (trades (cur c')) /\
    on_disk c' = cur c' /\
    open_notional (trades (cur c')) == open_notional (trades (cur c)) + spent_total rows /\
    realized_total (trades (cur c')) == realized_total (trades (cur c)).
Proof.
  induction rows as [|row rest IH]; intros c ids c' ids' H Hwf Hd.
  - simpl in H. injection H as <- <-. repeat split; try assumption; simpl; lra.
  - simpl in H. apply IH in H.
    + destruct H as (H1 & H2 & H3 & H4 & H5). simpl in *.
      repeat split; try assumption.
      * rewrite H4, open_notional_app. simpl. lra.
      * rewrite H5, realized_total_app. simpl. lra.
    + simpl. unfold wf in *. rewrite map_app, length_app, Hwf. simpl.
      rewrite Nat.add_1_r. now rewrite seq_S.
    + reflexivity.
Qed.

Lemma scan_once_good b c model sizer fetch_book snapshots c' r :
  good b c ->
  scan_once c model sizer fetch_book snapshots = (c', Ok r) ->
  good b c'.
Proof.
  intros (Hwf & Hd & a & Ha & Hb & Hc) H. unfold scan_once, get_account in H.
  rewrite Ha in H.
  destruct (place_orders _ _ _ _ _ _ _ _) as [c1 [[[cash1 n1] rows1]|]] eqn:E; [|discriminate].
  destruct a as [b0 cash0]. simpl in Hb, Hc. subst b0.
  apply (place_orders_ok _ _ _ _ _ _ _ _ _ _ _ _ b) in E; [|exact Ha|exact Hd].
  destruct E as (E1 & E2 & E3 & E4). simpl in E4.
  unfold insert_run in H.
  destruct (insert_trades _ _ _ _) as [c3 ids] eqn:Ei. injection H as <- _.
  apply insert_trades_ok in Ei; [|simpl; now rewrite E2|reflexivity].
  simpl in Ei. destruct Ei as (I1 & I2 & I3 & I4 & I5).
  split; [exact I2|]. split; [exact I3|].
  exists {| starting_bankroll := b; cash := cash1 |}.
  split; [now rewrite I1|]. split; [reflexivity|]. simpl.
  rewrite I4, I5, E2. simpl in Hc. lra.
Qed.

Lemma settle_one_id slug o t : trade_id (settle_one slug o t) = trade_id t.
Proof. unfold settle_one. now destruct (selected slug t). Qed.

(** What one trade adds to realized PnL and to open notional. *)
Definition realized_of (t : Trade) : Q :=
  match status t, realized_pnl t with
  | Closed, Some pnl => pnl
  | _, _ => 0
  end.

Definition open_of (t : Trade) : Q := if is_open (status t) then notional_usd t else 0.

(** Settling moves a selected trade from the open side of the balance
    to the realized side and adds its payout. *)
Lemma settle_one_balance slug o t :
  realized_of (settle_one slug o t) - open_of (settle_one slug o t)
  == realized_of t - open_of t
     + (if selected slug t then trade_shares t * spec_payout (side t) o else 0).
Proof.
  unfold settle_one, selected, realized_of, open_of.
  destruct (status t) eqn:Es; simpl.
  - destruct (String.eqb (market_slug t) slug); simpl; rewrite ?Es; simpl; lra.
  - rewrite Es. simpl. lra.
Qed.

Lemma settle_balance slug o ts :
  realized_total (map (settle_one slug o) ts) - open_notional (map (settle_one slug o) ts)
  == realized_total ts - open_notional ts + credited slug o ts.
Proof.
  induction ts as [|t rest IH]; simpl; [lra|].
  pose proof (settle_one_balance slug o t) as Ht.
  unfold realized_of, open_of in Ht. lra.
Qed.

Lemma close_good b c slug o c' closed :
  good b c ->
  close_market_positions c slug o = (c', Ok closed) ->
  good b c'.
Proof.
  intros (Hwf & Hd & a & Ha & Hb & Hc) H.
  destruct (close_market_positions_unfold c slug o a (wf_NoDup _ Hwf) Ha)
    as (cash' & closed' & Hcash & _ & E).
  rewrite E in H. cbv zeta in H. injection H as <- _.
  split; [|split].
  - simpl. unfold wf in *. rewrite map_map, length_map, <- Hwf.
    apply map_ext. intros t. apply settle_one_id.
  - reflexivity.
  - eexists. simpl. split; [reflexivity|]. simpl. split; [exact Hb|].
    pose proof (settle_balance slug o (trades (cur c))) as Hs.
    rewrite Hcash. lra.
Qed.

Lemma run_commands_good b cmds : forall c c',
  good b c -> run_commands c cmds = (c', true) -> good b c'.
Proof.
  induction cmds as [|cmd rest IH]; intros c c' Hg H; simpl in H.
  - now injection H as <-.
  - destruct (run_command c cmd) as [c1 ok1] eqn:E1.
    destruct (run_commands c1 rest) as [c2 ok2] eqn:E2.
    injection H as <- Hok. apply andb_true_iff in Hok. destruct Hok as [-> ->].
    apply (IH c1); [|exact E2].
    destruct cmd as [model sizer fetch_book snapshots | slug_ o]; simpl in E1.
    + destruct (scan_once c model sizer fetch_book snapshots) as [c0 [r|]] eqn:Es;
        [|discriminate].
      injection E1 as <-. eapply scan_once_good; eassumption.
    + destruct (close_market_positions c slug_ o) as [c0 [r|]] eqn:Es; [|discriminate].
      injection E1 as <-. eapply close_good; eassumption.
Qed.

Lemma init_good bankroll : good bankroll (init_db (connect empty_db) bankroll).
Proof.
  split; [reflexivity|]. split; [reflexivity|].
  eexists. split; [reflexivity|]. split; [reflexivity|]. simpl. lra.
Qed.

(** C1. Starting from a freshly initialised ledger, after any sequence
    of scans (each debiting what its fills spent and appending the open
    trades) and market settlements that all returned normally, the cash
    on disk equals the starting capital plus the realized PnL of the
    closed trades minus the notional of the open trades. *)
Theorem cash_conservation :
  forall (bankroll : Q) (cmds : list Command) (c : Conn),
    run_commands (init_db (connect empty_db) bankroll) cmds = (c, true) ->
    exists a,
      account (on_disk c) = Some a /\
      starting_bankroll a = bankroll /\
      cash a == bankroll + realized_total (list_closed_trades c)
                - open_notional (list_open_trades c).
Proof.
  intros bankroll cmds c H.
  apply (run_commands_good bankroll) in H; [|apply init_good].
  destruct H as (_ & Hd & a & Ha & Hb & Hc).
  exists a. rewrite Hd. split; [exact Ha|]. split; [exact Hb|].
  assert (Hr : forall ts, realized_total (List.filter (fun t => negb (is_open (status t))) ts)
                          == realized_total ts).
  { induction ts as [|t rest IH]; simpl; [lra|].
    destruct (status t) eqn:E; simpl; rewrite ?E; simpl; rewrite IH; lra. }
  assert (Ho : forall ts, open_notional (List.filter (fun t => is_open (status t)) ts)
                          == open_notional ts).
  { induction ts as [|t rest IH]; simpl; [lra|].
    destruct (status t) eqn:E; simpl; rewrite ?E; simpl; rewrite IH; lra. }
  unfold list_closed_trades, list_open_trades. rewrite Hr, Ho. exact Hc.
Qed.

(** A model with an edge on every market, one that fails on market
    ["eth-5k"] (the price source is unreachable), and a book with two
    ask levels. *)
Definition yes_signal (snap : MarketSnapshot) : Signal :=
  {| sig_side := "buy_yes"; sig_token_id := yes_token_id snap;
     market_price := yes_mid snap; model_price := 6 # 10;
     edge := (6 # 10) - yes_mid snap; confidence := 1 |}.

Definition steady_model : BaseModel :=
  {| model_name := "steady"; evaluate := fun snap => Ok (Some (yes_signal snap)) |}.

Definition flaky_model : BaseModel :=
  {| model_name := "flaky";
     evaluate := fun snap =>
       if String.eqb (slug snap) "eth-5k" then Raised else Ok (Some (yes_signal snap)) |}.

Definition two_level_book (token : string) : result (option (option (list Fill.Level))) :=
  Ok (Some (Some [Fill.lvl (4 # 10) 100; Fill.lvl (45 # 100) 50])).

Definition snapshot (s : string) : MarketSnapshot :=
  {| snap_market_id := s; slug := s; yes_token_id := s ++ "-yes"; no_token_id := s ++ "-no";
     yes_mid := 4 # 10; no_mid := 6 # 10 |}.

Definition fresh (bankroll : Q) : Conn := init_db (connect empty_db) bankroll.

Lemma cash_conservation_witness :
  exists c a,
    run_commands (fresh 1000)
      [Scan steady_model (FixedSizer 50) two_level_book [snapshot "btc-120k"; snapshot "eth-5k"];
       Resolve "btc-120k" true] = (c, true) /\
    account (on_disk c) = Some a /\
    cash a == 1000 + realized_total (list_closed_trades c) - open_notional (list_open_trades c).
Proof.
  destruct (run_commands (fresh 1000)
      [Scan steady_model (FixedSizer 50) two_level_book [snapshot "btc-120k"; snapshot "eth-5k"];
       Resolve "btc-120k" true]) as [c ok] eqn:E.
  assert (Hok : ok = true) by (apply (f_equal snd) in E; vm_compute in E; now symmetry).
  subst ok.
  destruct (cash_conservation 1000 _ c E) as (a & Ha & _ & Hc).
  exists c, a. repeat split; assumption.
Defined.

(** The cash a reader of the database file sees. *)
Definition disk_cash (d : Db) : option Q :=
  match account d with
  | Some a => Some (Qred (cash a))
  | None => None
  end.

(** C3, evaluated on the code. With $1000, a $50 order on the first
    market fills and the model raises on the second: [scan_once] is left
    by the exception with the $50 debit committed and no trade row, and
    stays so.  Also when nothing raises, the debit is on disk, committed
    on its own, before the trade is: one of the committed states has
    cash $950 and no trade. *)
Theorem debit_persisted_without_trade :
  (let r := scan_once (fresh 1000) flaky_model (FixedSizer 50) two_level_book
              [snapshot "btc-120k"; snapshot "eth-5k"] in
   snd r = Raised /\
   disk_cash (on_disk (fst r)) = Some 950 /\
   trades (on_disk (fst r)) = []) /\
  (let r := scan_once (fresh 1000) steady_model (FixedSizer 50) two_level_book
              [snapshot "btc-120k"] in
   disk_cash (on_disk (fst r)) = Some 950 /\
   length (trades (on_disk (fst r))) = 1%nat /\
   (exists d, In d (durable (fst r)) /\ disk_cash d = Some 950 /\ trades d = [])).
Proof.
  split.
  - vm_compute. repeat split.
  - cbv zeta. split; [reflexivity|]. split; [reflexivity|].
    eexists. split; [right; right; left; reflexivity|]. split; reflexivity.
Qed.

End EngineProps.

(** ** Spread monitor: the live-order ceiling *)

Module MonitorProps.
Import Monitor.

Definition capped (w : World) : Prop := Forall (fun o => amount o <= 5) (submitted w).

Lemma round2_le_5 x : x <= 5 -> round2 x <= 5.
Proof.
  intros Hx. unfold round2. cbv zeta.
  set (y := x * 100). set (f := Qfloor y).
  assert (Hy : y <= 500) by (unfold y; lra).
  assert (Hf : inject_Z f <= y) by apply Qfloor_le.
  assert (Hdiv : forall n : Z, (n <= 500)%Z -> inject_Z n / 100 <= 5).
  { intros n Hn. rewrite Zle_Qle in Hn.
    apply Qle_shift_div_r; [reflexivity|].
    change (inject_Z 500) with 500 in Hn. lra. }
  assert (Hlow : (f <= 500)%Z).
  { rewrite Zle_Qle. change (inject_Z 500) with 500. lra. }
  assert (Hup : 1 # 2 <= y - inject_Z f -> (f + 1 <= 500)%Z).
  { intros Hr. assert (Hlt : inject_Z f < inject_Z 500).
    { change (inject_Z 500) with 500. lra. }
    rewrite <- Zlt_Qlt in Hlt. lia. }
  destruct (ltb (y - inject_Z f) (1 # 2)) eqn:E1; [now apply Hdiv|].
  apply ltb_false in E1.
  destruct (ltb (1 # 2) (y - inject_Z f)) eqn:E2; [apply Hdiv; now apply Hup|].
  destruct (Z.even f); apply Hdiv; [exact Hlow | now apply Hup].
Qed.

Lemma maybe_execute_capped opp thr live confirm cap run_seq g minp cool impr broker w :
  cap <= 5 -> capped w ->
  capped (snd (fst (maybe_execute opp thr live confirm cap run_seq g minp cool impr broker w))).
Proof.
  intros Hcap Hw. unfold maybe_execute. cbv zeta.
  destruct (ltb (net_edge opp) thr); [exact Hw|].
  destruct (persist_runs opp <? minp)%Z; [exact Hw|].
  destruct (_ && _); [exact Hw|].
  destruct (negb live); [exact Hw|].
  destruct (negb confirm); [exact Hw|].
  destruct (ltb cap (order_usd opp)) eqn:E; [exact Hw|].
  apply ltb_false in E.
  assert (Hnew : capped (send_order (write_log w (decision (slug opp) (net_edge opp) (persist_runs opp)))
                           {| mo_token := token opp; amount := round2 (order_usd opp) |})).
  { unfold capped. simpl. apply Forall_app. split; [exact Hw|].
    constructor; [|constructor]. simpl. apply round2_le_5. lra. }
  destruct (broker _); exact Hnew.
Qed.

Lemma execute_top_capped top args run_seq broker : forall g w,
  live_order_usd args <= 5 -> capped w ->
  capped (snd (fst (execute_top top args run_seq g broker w))).
Proof.
  induction top as [|opp rest IH]; intros g w Hcap Hw; simpl; [exact Hw|].
  pose proof (maybe_execute_capped opp (threshold args) (execute_live args) (confirm_live args)
                (live_order_usd args) run_seq g (min_persist_runs args)
                (signal_cooldown_runs args) (min_improvement_bps args) broker w Hcap Hw) as H.
  destruct (maybe_execute _ _ _ _ _ _ _ _ _ _ _ _) as [[g1 w1] [|]]; simpl in H.
  - now apply IH.
  - exact H.
Qed.

Lemma validate_args_cap args : validate_args args = true -> live_order_usd args <= 5.
Proof.
  unfold validate_args. destruct (ltb 5 (live_order_usd args)) eqn:E; [discriminate|].
  intros _. now apply ltb_false in E.
Qed.

Lemma fold_write_log_submitted {A} (ev : A -> Event) (l : list A) : forall w,
  submitted (fold_left (fun w x => write_log w (ev x)) l w) = submitted w.
Proof. induction l as [|x rest IH]; intros w; simpl; [reflexivity | now rewrite IH]. Qed.

Lemma run_scan_capped args markets g run_seq broker w :
  validate_args args = true -> capped w ->
  capped (snd (fst (run_scan args markets g run_seq broker w))).
Proof.
  intros Hv Hw. unfold run_scan. cbv zeta.
  destruct (rank_and_stamp _ _ _) as [opps streak].
  match goal with |- context [execute_top ?t ?a ?r ?g0 ?b ?w0] =>
    assert (H : capped (snd (fst (execute_top t a r g0 b w0))));
    [ apply execute_top_capped; [now apply validate_args_cap|];
      unfold capped; now rewrite fold_write_log_submitted
    | destruct (execute_top t a r g0 b w0) as [[g1 w1] [|]]; exact H ]
  end.
Qed.

Lemma main_loop_capped cycles : forall args g runs_ w,
  capped w -> capped (snd (main_loop cycles args g runs_ w)).
Proof.
  induction cycles as [|cy rest IH]; intros args g runs_ w Hw; simpl; [exact Hw|].
  set (args' := force_paper (apply_runtime_config cy args)).
  destruct (validate_args args') eqn:Hv; simpl; [|exact Hw].
  assert (H : capped (snd (fst
            (match priced cy with
             | Ok markets => run_scan args' markets g (runs_ + 1) (order_channel cy) w
             | Raised => (g, w, false)
             end)))).
  { destruct (priced cy); [now apply run_scan_capped | exact Hw]. }
  destruct (match priced cy with Ok _ => _ | Raised => _ end) as [[g1 w1] ok]. simpl in H.
  assert (H' : capped (if ok then w1 else write_log w1 run_error)) by (destruct ok; exact H).
  destruct (loop_secs args' <=? 0)%Z; [exact H'|].
  destruct (_ && _); [exact H'|]. now apply IH.
Qed.

(** The candidate that reaches the submission step of [maybe_execute]:
    it clears the threshold and the persistence gate and is not held
    back by the cooldown. *)
Definition reaches_submission (opp : Opp) (args : Args) (run_seq : Z) (g : GateState) : bool :=
  negb (ltb (net_edge opp) (threshold args)) &&
  negb (persist_runs opp <? min_persist_runs args)%Z &&
  negb ((run_seq - default no_last_run (last_signal_run g !! slug opp)
           <? signal_cooldown_runs args)%Z &&
        ltb (improvement_bps_of (net_edge opp)
               (default no_last_edge (last_signal_edge g !! slug opp)))
            (min_improvement_bps args)) &&
  execute_live args && confirm_live args.

(** C10. Whatever the initial arguments, the config file contents of
    each cycle, the markets and the behaviour of the order channel,
    every market order the loop of [main] sends has an amount of at
    most $5.00.  A live-order setting above $5 is refused by
    [validate_args], and a candidate that reaches the submission step
    with an order above the live cap is logged as
    [blocked_live_over_cap] and nothing is sent. *)
Theorem live_order_ceiling :
  (forall (args : Args) (cycles : list Cycle),
     Forall (fun o => amount o <= 5) (submitted (snd (main args cycles)))) /\
  (forall args, 5 < live_order_usd args -> validate_args args = false) /\
  (forall opp args run_seq g broker w,
     reaches_submission opp args run_seq g = true ->
     live_order_usd args < order_usd opp ->
     maybe_execute opp (threshold args) (execute_live args) (confirm_live args)
       (live_order_usd args) run_seq g (min_persist_runs args) (signal_cooldown_runs args)
       (min_improvement_bps args) broker w
     = (g, {| log := log w ++ [decision (slug opp) (net_edge opp) (persist_runs opp);
                               blocked_live_over_cap (slug opp) (order_usd opp)];
              submitted := submitted w |}, true)).
Proof.
  split; [|split].
  - intros args cycles. unfold main.
    destruct (validate_args args); simpl; [|constructor].
    apply main_loop_capped. constructor.
  - intros args H. unfold validate_args. apply ltb_true in H. now rewrite H.
  - intros opp args run_seq g broker w Hr Hcap. unfold reaches_submission in Hr.
    repeat (apply andb_true_iff in Hr; destruct Hr as [Hr ?]).
    unfold maybe_execute. cbv zeta.
    repeat match goal with H : negb _ = true |- _ => apply negb_true_iff in H end.
    rewrite Hr.
    repeat match goal with H : _ = _ |- _ => rewrite H end. simpl.
    apply ltb_true in Hcap. rewrite Hcap. unfold write_log. simpl.
    now rewrite <- app_assoc.
Qed.

(** ** Spread monitor: cooldown *)


Definition is_persistence_block (e : Event) : bool :=
  match e with signal_blocked_persistence _ _ _ => true | _ => false end.

(** A fired signal: the paper log entry or the confirmed live order. *)
Definition is_fire (e : Event) : bool :=
  match e with paper_trade_signal _ _ | live_order_submitted _ => true | _ => false end.








(** Candidates and gate states for the examples: a paper-mode signal on
    ["btc-120k"] fired at cycle 7 with net edge 0.03. *)
Definition candidate (s : string) (e : Q) (persist : Z) : Opp :=
  {| slug := s; choice := "buy_yes"; token := "tok"; gross_edge := e; total_cost_frac := 0;
     net_edge := e; order_usd := 4; kelly_full_fraction := 1 # 10;
     kelly_scaled_fraction := 1 # 40; persist_runs := persist |}.

Definition quiet : World := {| log := []; submitted := [] |}.







(** ** Spread monitor: persistence *)

Lemma insert_desc_perm o l : Permutation (insert_desc o l) (o :: l).
Proof.
  induction l as [|x rest IH]; simpl; [reflexivity|].
  destruct (ltb (net_edge o) (net_edge x)); [|reflexivity].
  rewrite IH. apply perm_swap.
Qed.

Lemma sort_desc_perm l : Permutation (sort_desc l) l.
Proof.
  induction l as [|x rest IH]; simpl; [reflexivity|].
  rewrite insert_desc_perm. now constructor.
Qed.

(** The counter a candidate is stamped with. *)
Definition stamp_value (pass : gset string) (streak : gmap string Z) (o : Opp) : Z :=
  if String.eqb (slug o) "" then 0%Z
  else if decide (slug o ∈ pass) then (default 0 (streak !! slug o) + 1)%Z else 0%Z.

Lemma stamp_streaks_untouched pass opps : forall streak k,
  ~ In k (map slug opps) ->
  snd (stamp_streaks pass opps streak) !! k = streak !! k.
Proof.
  induction opps as [|o rest IH]; intros streak k Hk; simpl; [reflexivity|].
  simpl in Hk. apply Decidable.not_or in Hk. destruct Hk as [Hne Hk].
  destruct (String.eqb (slug o) "").
  - specialize (IH streak k Hk). destruct (stamp_streaks pass rest streak). exact IH.
  - match goal with |- context [stamp_streaks pass rest ?m] =>
      specialize (IH m k Hk); destruct (stamp_streaks pass rest m) end.
    simpl in *. rewrite IH. now apply lookup_insert_ne.
Qed.

Lemma stamp_value_insert pass streak k n o :
  slug o <> k -> stamp_value pass (<[k := n]> streak) o = stamp_value pass streak o.
Proof. intros Hne. unfold stamp_value. rewrite lookup_insert_ne; [reflexivity | congruence]. Qed.

(** The slugs of a cycle, without the empty ones. *)
Definition named (slugs : list string) : list string :=
  List.filter (fun k => negb (String.eqb k "")) slugs.

Lemma named_cons k rest :
  named (k :: rest) = if String.eqb k "" then named rest else k :: named rest.
Proof. unfold named. simpl. now destruct (String.eqb k ""). Qed.

Lemma in_named k slugs : In k slugs -> k <> "" -> In k (named slugs).
Proof.
  intros Hin Hne. unfold named. apply filter_In. split; [exact Hin|].
  apply String.eqb_neq in Hne. now rewrite Hne.
Qed.

Lemma named_perm l l' : Permutation l l' -> Permutation (named l) (named l').
Proof.
  induction 1 as [|k l l' _ IH|a b l|l1 l2 l3 _ IH1 _ IH2].
  - constructor.
  - rewrite !named_cons. destruct (String.eqb k ""); [exact IH | now constructor].
  - rewrite !named_cons. destruct (String.eqb a ""), (String.eqb b "");
      try reflexivity. apply perm_swap.
  - now transitivity (named l2).
Qed.

(** Two candidates of a cycle with the same slug, not empty, are the
    same candidate when no such slug occurs twice. *)
Lemma named_injective opps :
  List.NoDup (named (map slug opps)) ->
  forall a b, In a opps -> In b opps -> slug a = slug b -> slug a <> "" -> a = b.
Proof.
  induction opps as [|o rest IH]; intros Hnd a b Ha Hb E Hne; [destruct Ha|].
  cbn [map] in Hnd. rewrite named_cons in Hnd.
  assert (Hrest : List.NoDup (named (map slug rest)) /\
                  (slug o <> "" -> ~ In (slug o) (map slug rest))).
  { destruct (String.eqb (slug o) "") eqn:Eo.
    - split; [exact Hnd|]. intros H. apply String.eqb_eq in Eo. contradiction.
    - apply NoDup_cons_iff in Hnd. destruct Hnd as [Hnot Hnd]. split; [exact Hnd|].
      intros Ho Hin. apply Hnot. now apply in_named. }
  destruct Hrest as [Hnd' Hnot].
  destruct Ha as [Ea|Ha]; destruct Hb as [Eb|Hb].
  - congruence.
  - exfalso. subst a. apply (Hnot Hne). rewrite E. now apply in_map.
  - exfalso. subst b. assert (Ho : slug o <> "") by congruence.
    apply (Hnot Ho). rewrite <- E. now apply in_map.
  - now apply IH.
Qed.

Lemma stamp_streaks_stamped pass opps : forall streak,
  List.NoDup (named (map slug opps)) ->
  fst (stamp_streaks pass opps streak)
  = map (fun o => with_persist_runs o (stamp_value pass streak o)) opps.
Proof.
  induction opps as [|o rest IH]; intros streak Hnd; simpl; [reflexivity|].
  cbn [map] in Hnd. rewrite named_cons in Hnd.
  unfold stamp_value at 1.
  destruct (String.eqb (slug o) "") eqn:Eo.
  - specialize (IH streak Hnd). destruct (stamp_streaks pass rest streak). simpl in *.
    now rewrite IH.
  - apply NoDup_cons_iff in Hnd. destruct Hnd as [Hnot Hnd].
    match goal with |- context [stamp_streaks pass rest ?m] =>
      specialize (IH m Hnd); destruct (stamp_streaks pass rest m) end.
    simpl in *. rewrite IH. f_equal. apply map_ext_in. intros o' Ho'.
    rewrite stamp_value_insert; [reflexivity|].
    intros E. apply Hnot. rewrite <- E. apply in_named; [now apply in_map|].
    rewrite E. now apply String.eqb_neq.
Qed.

Lemma stamp_streaks_counter pass opps : forall streak o,
  List.NoDup (named (map slug opps)) -> In o opps -> slug o <> "" ->
  snd (stamp_streaks pass opps streak) !! slug o = Some (stamp_value pass streak o).
Proof.
  induction opps as [|x rest IH]; intros streak o Hnd Ho Hne; [destruct Ho|].
  cbn [map] in Hnd. rewrite named_cons in Hnd.
  simpl. destruct Ho as [<-|Ho].
  - unfold stamp_value. apply String.eqb_neq in Hne. rewrite Hne in *.
    apply NoDup_cons_iff in Hnd. destruct Hnd as [Hnot Hnd].
    assert (Hnot' : ~ In (slug x) (map slug rest)).
    { intros Hin. apply Hnot. apply in_named; [exact Hin|]. now apply String.eqb_neq. }
    pose proof (stamp_streaks_untouched pass rest
                  (<[slug x := if decide (slug x ∈ pass)
                               then (default 0 (streak !! slug x) + 1)%Z else 0%Z]> streak)
                  (slug x) Hnot') as Hu.
    destruct (stamp_streaks pass rest _). simpl in *. rewrite Hu. apply lookup_insert_eq.
  - destruct (String.eqb (slug x) "") eqn:Ex.
    + specialize (IH streak o Hnd Ho Hne). destruct (stamp_streaks pass rest streak). exact IH.
    + apply NoDup_cons_iff in Hnd. destruct Hnd as [Hnot Hnd].
      assert (Hxo : slug o <> slug x).
      { intros E. apply Hnot. rewrite <- E. apply in_named; [now apply in_map | exact Hne]. }
      match goal with |- context [stamp_streaks pass rest ?m] =>
        specialize (IH m o Hnd Ho Hne); destruct (stamp_streaks pass rest m) end.
      simpl in *. rewrite IH. f_equal. now apply stamp_value_insert.
Qed.

Lemma elem_of_pass_slugs thr opps k :
  k ∈ pass_slugs thr opps <-> exists o, In o opps /\ slug o = k /\ leb thr (net_edge o) = true.
Proof.
  unfold pass_slugs. rewrite elem_of_list_to_set, list_elem_of_In, in_map_iff.
  split; intros (o & H1 & H2).
  - apply filter_In in H2. destruct H2 as [H2 H3]. now exists o.
  - destruct H2 as [H2 H3]. exists o. split; [exact H2|]. apply filter_In. now split.
Qed.

Lemma reset_streaks_lookup pass streak k :
  reset_streaks pass streak !! k
  = (fun v => if decide (k ∈ pass) then v else 0%Z) <$> streak !! k.
Proof. unfold reset_streaks. rewrite map_lookup_imap. now destruct (streak !! k). Qed.

(** The counter of a candidate after the streak block: one more than
    before when its net edge clears the threshold, zero otherwise. *)
Definition counter_after (thr : Q) (streak : gmap string Z) (o : Opp) : Z :=
  if leb thr (net_edge o) then (default 0 (streak !! slug o) + 1)%Z else 0%Z.

Lemma stamp_value_counter thr opps streak o :
  List.NoDup (named (map slug opps)) -> In o opps -> slug o <> "" ->
  stamp_value (pass_slugs thr (sort_desc opps))
    (reset_streaks (pass_slugs thr (sort_desc opps)) streak) o
  = counter_after thr streak o.
Proof.
  intros Hnd Ho Hne. unfold stamp_value, counter_after.
  apply String.eqb_neq in Hne. rewrite Hne.
  rewrite reset_streaks_lookup.
  destruct (decide (slug o ∈ pass_slugs thr (sort_desc opps))) as [Hin|Hout].
  - apply elem_of_pass_slugs in Hin. destruct Hin as (o' & Ho' & Hs & Hp).
    apply (Permutation_in _ (sort_desc_perm opps)) in Ho'.
    assert (o' = o).
    { apply (named_injective opps Hnd); [exact Ho' | exact Ho | exact Hs |].
      rewrite Hs. now apply String.eqb_neq. }
    subst o'.
    rewrite Hp. now destruct (streak !! slug o).
  - destruct (leb thr (net_edge o)) eqn:Hp; [|reflexivity].
    exfalso. apply Hout. apply elem_of_pass_slugs. exists o. split; [|now split].
    apply (Permutation_in _ (Permutation_sym (sort_desc_perm opps))). exact Ho.
Qed.

Lemma rank_and_stamp_spec thr opps streak :
  List.NoDup (named (map slug opps)) ->
  fst (rank_and_stamp thr opps streak)
  = map (fun o => with_persist_runs o
                    (if String.eqb (slug o) "" then 0%Z else counter_after thr streak o))
        (sort_desc opps) /\
  (forall o, In o opps -> slug o <> "" ->
     snd (rank_and_stamp thr opps streak) !! slug o = Some (counter_after thr streak o)) /\
  (forall k, ~ In k (map slug opps) ->
     snd (rank_and_stamp thr opps streak) !! k = (fun _ => 0%Z) <$> streak !! k).
Proof.
  intros Hnd. unfold rank_and_stamp. cbv zeta.
  assert (Hnd' : List.NoDup (named (map slug (sort_desc opps)))).
  { eapply Permutation_NoDup; [|exact Hnd].
    apply named_perm, Permutation_map, Permutation_sym, sort_desc_perm. }
  split; [|split].
  - rewrite stamp_streaks_stamped by exact Hnd'. apply map_ext_in. intros o Ho.
    apply (Permutation_in _ (sort_desc_perm opps)) in Ho. f_equal.
    destruct (String.eqb (slug o) "") eqn:E.
    + unfold stamp_value. now rewrite E.
    + apply stamp_value_counter; [exact Hnd | exact Ho | now apply String.eqb_neq].
  - intros o Ho Hne. rewrite stamp_streaks_counter.
    + f_equal. now apply stamp_value_counter.
    + exact Hnd'.
    + apply (Permutation_in _ (Permutation_sym (sort_desc_perm opps))). exact Ho.
    + exact Hne.
  - intros k Hk. rewrite stamp_streaks_untouched.
    + rewrite reset_streaks_lookup.
      destruct (decide (k ∈ pass_slugs thr (sort_desc opps))) as [Hin|Hout]; [|reflexivity].
      exfalso. apply Hk. apply elem_of_pass_slugs in Hin. destruct Hin as (o & Ho & Hs & _).
      apply (Permutation_in _ (sort_desc_perm opps)) in Ho. rewrite <- Hs. now apply in_map.
    + intros Hin. apply Hk.
      eapply Permutation_in; [|exact Hin]. apply Permutation_map, sort_desc_perm.
Qed.

Lemma maybe_execute_streak opp thr live confirm cap run_seq g minp cool impr broker w :
  streak_by_slug (fst (fst (maybe_execute opp thr live confirm cap run_seq g minp cool impr
                              broker w)))
  = streak_by_slug g.
Proof.
  unfold maybe_execute. cbv zeta.
  repeat match goal with |- context [if ?b then _ else _] => destruct b end; reflexivity.
Qed.

Lemma execute_top_streak top args run_seq broker : forall g w,
  streak_by_slug (fst (fst (execute_top top args run_seq g broker w))) = streak_by_slug g.
Proof.
  induction top as [|opp rest IH]; intros g w; simpl; [reflexivity|].
  pose proof (maybe_execute_streak opp (threshold args) (execute_live args) (confirm_live args)
                (live_order_usd args) run_seq g (min_persist_runs args)
                (signal_cooldown_runs args) (min_improvement_bps args) broker w) as H.
  destruct (maybe_execute _ _ _ _ _ _ _ _ _ _ _ _) as [[g1 w1] [|]]; simpl in H.
  - now rewrite IH.
  - exact H.
Qed.

Lemma run_scan_streak args markets g run_seq broker w :
  streak_by_slug (fst (fst (run_scan args markets g run_seq broker w)))
  = snd (rank_and_stamp (threshold args) (evaluate_all args markets) (streak_by_slug g)).
Proof.
  unfold run_scan. cbv zeta.
  destruct (rank_and_stamp _ _ _) as [opps streak].
  match goal with |- context [execute_top ?t ?a ?r ?g0 ?b ?w0] =>
    pose proof (execute_top_streak t a r b g0 w0) as H;
    destruct (execute_top t a r g0 b w0) as [[g1 w1] [|]]
  end; exact H.
Qed.

Lemma evaluate_all_slugs args markets :
  map slug (evaluate_all args markets) = map m_slug markets.
Proof.
  unfold evaluate_all. cbv zeta. rewrite map_map. apply map_ext. intros m.
  unfold evaluate_market. cbv zeta. now destruct (ltb (yes_mid m) (model_yes m)).
Qed.

(** A four-cycle paper run on one market: threshold 1.2%, no costs,
    [min_persist_runs = 2].  The market is quoted at 0.40; the model
    says 0.45 in cycles 1, 2 and 4 (net edge 0.05) and 0.405 in cycle 3
    (net edge 0.005). *)
Definition paper_args : Args :=
  {| bankroll_usd := 1000; kelly_fraction := 1 # 4; max_paper_order_usd := 100;
     live_order_usd := 5; threshold := 12 # 1000; fee_bps := 0; slippage_bps := 0;
     gas_usd := 0; paper_only := false; execute_live := false; confirm_live := false;
     min_persist_runs := 2; signal_cooldown_runs := 5; min_improvement_bps := 25;
     loop_secs := 60; max_runs := 0 |}.

Definition quoted (model : Q) : Cycle :=
  {| apply_runtime_config := fun args => args;
     priced := Ok [{| m_slug := "btc-120k"; yes_token := "1"; no_token := "2";
                      yes_mid := 4 # 10; no_mid := 6 # 10; model_yes := model |}];
     order_channel := fun _ => true |}.

Definition four_cycles : list Cycle :=
  [quoted (45 # 100); quoted (45 # 100); quoted (405 # 1000); quoted (45 # 100)].

(** The counter of the market and the number of fired signals after the
    first [n] cycles. *)
Definition after_cycles (n : nat) : option Z * nat :=
  let '(g, w) := main paper_args (firstn n four_cycles) in
  (streak_by_slug g !! "btc-120k", length (List.filter is_fire (log w))).

(** The market of [quoted], returned twice by the market search of one
    cycle. *)
Definition listed_twice (model : Q) : Cycle :=
  {| apply_runtime_config := fun args => args;
     priced := Ok [{| m_slug := "btc-120k"; yes_token := "1"; no_token := "2";
                      yes_mid := 4 # 10; no_mid := 6 # 10; model_yes := model |};
                   {| m_slug := "btc-120k"; yes_token := "1"; no_token := "2";
                      yes_mid := 4 # 10; no_mid := 6 # 10; model_yes := model |}];
     order_channel := fun _ => true |}.

(** The counter of the market and the number of fired signals after a
    first cycle. *)
Definition after_first (cy : Cycle) : option Z * nat :=
  let '(g, w) := main paper_args [cy] in
  (streak_by_slug g !! "btc-120k", length (List.filter is_fire (log w))).

(** C4, evaluated on the code.  With [min_persist_runs = 2], a market
    that clears the threshold for the first time and that the search
    lists twice in that cycle has its counter raised once per entry, to
    2, and its signal fires in cycle 1; listed once, the counter is 1
    and nothing fires. *)
Theorem duplicate_slug_counted_twice :
  min_persist_runs paper_args = 2%Z /\
  after_first (listed_twice (45 # 100)) = (Some 2%Z, 1%nat) /\
  after_first (quoted (45 # 100)) = (Some 1%Z, 0%nat).
Proof.
  split; [reflexivity|]. split.
  - vm_compute. reflexivity.
  - vm_compute. reflexivity.
Qed.

(** X13. In a cycle in which no slug other than the empty one occurs
    twice among the evaluated markets, the counter of every evaluated
    market with a slug becomes one more than before when its net edge
    is at or above the threshold and zero otherwise, the counter of
    every other known slug becomes zero, and each candidate handed to
    [maybe_execute] carries that counter (0 for a market without a
    slug); a candidate whose counter is below [min_persist_runs] never
    fires: the gate state and the orders sent are unchanged and no
    signal is logged.  With [min_persist_runs = 2], a market above
    threshold in cycles 1 and 2 fires at cycle 2 and not at cycle 1;
    below threshold in cycle 3 its counter is 0, and 1 after clearing
    again in cycle 4. *)
Theorem persistence_gate :
  (forall args markets g run_seq broker w,
     List.NoDup (named (map m_slug markets)) ->
     let g' := fst (fst (run_scan args markets g run_seq broker w)) in
     let opps := evaluate_all args markets in
     (forall o, In o opps -> slug o <> "" ->
        streak_by_slug g' !! slug o
        = Some (if leb (threshold args) (net_edge o)
                then (default 0 (streak_by_slug g !! slug o) + 1)%Z else 0%Z)) /\
     (forall k, ~ In k (map m_slug markets) ->
        streak_by_slug g' !! k = (fun _ => 0%Z) <$> streak_by_slug g !! k) /\
     fst (rank_and_stamp (threshold args) opps (streak_by_slug g))
     = map (fun o => with_persist_runs o
                       (if String.eqb (slug o) "" then 0%Z
                        else if leb (threshold args) (net_edge o)
                             then (default 0 (streak_by_slug g !! slug o) + 1)%Z else 0%Z))
           (sort_desc opps)) /\
  (forall opp thr live confirm cap run_seq g minp cool impr broker w,
     (persist_runs opp < minp)%Z ->
     let out := maybe_execute opp thr live confirm cap run_seq g minp cool impr broker w in
     fst (fst out) = g /\
     submitted (snd (fst out)) = submitted w /\
     exists new, log (snd (fst out)) = log w ++ new /\ existsb is_fire new = false) /\
  (after_cycles 1 = (Some 1%Z, 0%nat) /\
   after_cycles 2 = (Some 2%Z, 1%nat) /\
   after_cycles 3 = (Some 0%Z, 1%nat) /\
   after_cycles 4 = (Some 1%Z, 1%nat)).
Proof.
  split; [|split].
  - intros args markets g run_seq broker w Hnd. cbv zeta.
    rewrite run_scan_streak.
    assert (Hnd' : List.NoDup (named (map slug (evaluate_all args markets))))
      by now rewrite evaluate_all_slugs.
    destruct (rank_and_stamp_spec (threshold args) (evaluate_all args markets)
                (streak_by_slug g) Hnd') as (H1 & H2 & H3).
    split; [|split].
    + intros o Ho Hne. now apply H2.
    + intros k Hk. apply H3. now rewrite evaluate_all_slugs.
    + exact H1.
  - intros opp thr live confirm cap run_seq g minp cool impr broker w Hlt. cbv zeta.
    unfold maybe_execute. cbv zeta.
    apply Z.ltb_lt in Hlt. rewrite Hlt.
    destruct (ltb (net_edge opp) thr); simpl.
    + repeat split. eexists. split; reflexivity.
    + repeat split. eexists. split; [now rewrite <- app_assoc | reflexivity].
  - vm_compute. repeat split.
Qed.

Definition btc_market : Priced :=
  {| m_slug := "btc-120k"; yes_token := "1"; no_token := "2";
     yes_mid := 4 # 10; no_mid := 6 # 10; model_yes := 45 # 100 |}.

(** A market whose slug is missing; two of them may share a cycle. *)
Definition unnamed_market : Priced :=
  {| m_slug := ""; yes_token := "3"; no_token := "4";
     yes_mid := 5 # 10; no_mid := 5 # 10; model_yes := 52 # 100 |}.

Definition btc_candidate : Opp :=
  evaluate_market btc_market (fmax (fee_bps paper_args) 0 / 10000) (bankroll_usd paper_args)
    (kelly_fraction paper_args) (max_paper_order_usd paper_args) (live_order_usd paper_args)
    (execute_live paper_args) (slippage_bps paper_args) (gas_usd paper_args).

Lemma persistence_gate_witness :
  streak_by_slug
    (fst (fst (run_scan paper_args [unnamed_market; btc_market; unnamed_market] empty_gate 1
                 (fun _ => true) quiet)))
    !! slug btc_candidate
  = Some (if leb (threshold paper_args) (net_edge btc_candidate)
          then (default 0 (streak_by_slug empty_gate !! slug btc_candidate) + 1)%Z else 0%Z).
Proof.
  assert (Hnd : List.NoDup (named (map m_slug [unnamed_market; btc_market; unnamed_market]))).
  { constructor; [intros []|constructor]. }
  apply (proj1 (proj1 persistence_gate paper_args [unnamed_market; btc_market; unnamed_market]
                  empty_gate 1%Z (fun _ => true) quiet Hnd)).
  - right. left. reflexivity.
  - intros E. vm_compute in E. discriminate.
Defined.

Lemma live_order_ceiling_witness :
  let args :=
    {| bankroll_usd := 1000; kelly_fraction := 1 # 4; max_paper_order_usd := 100;
       live_order_usd := 5; threshold := 12 # 1000; fee_bps := 0; slippage_bps := 0;
       gas_usd := 0; paper_only := false; execute_live := true; confirm_live := true;
       min_persist_runs := 2; signal_cooldown_runs := 5; min_improvement_bps := 25;
       loop_secs := 60; max_runs := 0 |} in
  let opp := with_persist_runs (candidate "btc-120k" (3 # 100) 2) 2 in
  let big :=
    {| slug := slug opp; choice := choice opp; token := token opp; gross_edge := gross_edge opp;
       total_cost_frac := 0; net_edge := net_edge opp; order_usd := 6;
       kelly_full_fraction := 1 # 10; kelly_scaled_fraction := 1 # 40; persist_runs := 2 |} in
  submitted (snd (fst (maybe_execute big (threshold args) (execute_live args) (confirm_live args)
                         (live_order_usd args) 1 empty_gate (min_persist_runs args)
                         (signal_cooldown_runs args) (min_improvement_bps args)
                         (fun _ => true) quiet))) = [].
Proof.
  cbv zeta.
  rewrite (proj2 (proj2 live_order_ceiling)); reflexivity.
Defined.

End MonitorProps.

(** ** Fair value *)

Module FairValueProps.
Import FairValue.
Import Lra.
Local Open Scope R_scope.

Lemma erf_0 : erf 0 = 0.
Proof. unfold erf. rewrite RiemannInt_P9. lra. Qed.

Lemma gauss_pos t : 0 < gauss t.
Proof. apply exp_pos. Qed.

(** The integral of a positive function over an interval walked
    backwards is negative. *)
Lemma gauss_integral_neg x : x < 0 -> RiemannInt (gauss_integrable 0 x) < 0.
Proof.
  intros Hx.
  rewrite (RiemannInt_P8 (gauss_integrable 0 x) (gauss_integrable x 0)).
  pose proof (RiemannInt_P19 (f := fct_cte (gauss x)) (g := gauss)
                (RiemannInt_P14 x 0 (gauss x)) (gauss_integrable x 0)) as H.
  rewrite RiemannInt_P15 in H.
  assert (Hle : x <= 0) by lra. specialize (H Hle).
  assert (Hmono : forall t, x < t < 0 -> fct_cte (gauss x) t <= gauss t).
  { intros t Ht. unfold fct_cte, gauss. left. apply exp_increasing. nra. }
  specialize (H Hmono). pose proof (gauss_pos x). nra.
Qed.

Lemma erf_neg x : x < 0 -> erf x < 0.
Proof.
  intros Hx. unfold erf.
  assert (0 < 2 / sqrt PI).
  { apply Rdiv_lt_0_compat; [lra|]. apply sqrt_lt_R0. apply PI_RGT_0. }
  pose proof (gauss_integral_neg x Hx). nra.
Qed.

Lemma norm_cdf_0 : norm_cdf 0 = 1 / 2.
Proof. unfold norm_cdf. replace (0 / sqrt 2) with 0 by (unfold Rdiv; ring). rewrite erf_0. lra. Qed.

Lemma norm_cdf_neg z : z < 0 -> norm_cdf z < 1 / 2.
Proof.
  intros Hz. unfold norm_cdf.
  assert (Hs : 0 < / sqrt 2) by (apply Rinv_0_lt_compat, sqrt_lt_R0; lra).
  assert (Hq : z / sqrt 2 < 0) by (unfold Rdiv; nra).
  pose proof (erf_neg _ Hq). lra.
Qed.

(** *** The range of [erf]

    [erf] is bounded by 1 in absolute value: the Gaussian is dominated
    by [(1 + x^2/n)^(-n)], whose integral is [sqrt n] times a Wallis
    integral of an even power of the cosine, and the Wallis product
    bounds that by [sqrt (pi / (4 (n - 1)))]. *)

(** A primitive of [cos ^ m], vanishing at 0. *)
Fixpoint W (m : nat) (x : R) : R :=
  match m with
  | O => x
  | S m' =>
      match m' with
      | O => sin x
      | S k => (cos x ^ m' * sin x + INR m' * W k x) / INR m
      end
  end.

Lemma W_SS k x : W (S (S k)) x = (cos x ^ S k * sin x + INR (S k) * W k x) / INR (S (S k)).
Proof. reflexivity. Qed.

Lemma W_deriv_step k x :
  derivable_pt_lim (W k) x (cos x ^ k) ->
  derivable_pt_lim (W (S (S k))) x (cos x ^ S (S k)).
Proof.
  intros IH.
  assert (H1 : derivable_pt_lim (fun y => cos y ^ S k) x (INR (S k) * cos x ^ k * - sin x)).
  { exact (derivable_pt_lim_comp cos (fun y => y ^ S k) x _ _
             (derivable_pt_lim_cos x) (derivable_pt_lim_pow (cos x) (S k))). }
  assert (H2 : derivable_pt_lim (fun y => cos y ^ S k * sin y) x
                 (INR (S k) * cos x ^ k * - sin x * sin x + cos x ^ S k * cos x)).
  { exact (derivable_pt_lim_mult _ _ x _ _ H1 (derivable_pt_lim_sin x)). }
  assert (H3 : derivable_pt_lim (fun y => INR (S k) * W k y) x (INR (S k) * cos x ^ k)).
  { exact (derivable_pt_lim_scal (W k) (INR (S k)) x _ IH). }
  assert (H4 : derivable_pt_lim (fun y => cos y ^ S k * sin y + INR (S k) * W k y) x
                 (INR (S k) * cos x ^ k * - sin x * sin x + cos x ^ S k * cos x
                  + INR (S k) * cos x ^ k)).
  { exact (derivable_pt_lim_plus _ _ x _ _ H2 H3). }
  pose proof (derivable_pt_lim_div_scal _ x _ (INR (S (S k))) H4) as H5.
  assert (Hn : INR (S (S k)) <> 0) by (apply not_0_INR; discriminate).
  replace (cos x ^ S (S k))
    with ((INR (S k) * cos x ^ k * - sin x * sin x + cos x ^ S k * cos x
           + INR (S k) * cos x ^ k) / INR (S (S k))).
  - exact H5.
  - pose proof (sin2_cos2 x) as Hsc. unfold Rsqr in Hsc.
    assert (Hs : sin x * sin x = 1 - cos x * cos x) by lra.
    rewrite (S_INR (S k)). rewrite (S_INR (S k)) in Hn.
    replace (INR (S k) * cos x ^ k * - sin x * sin x)
      with (- (INR (S k) * cos x ^ k) * (sin x * sin x)) by ring.
    rewrite Hs. simpl pow. field. exact Hn.
Qed.

Lemma W_deriv : forall m x, derivable_pt_lim (W m) x (cos x ^ m).
Proof.
  assert (H : forall m, (forall x, derivable_pt_lim (W m) x (cos x ^ m)) /\
                        (forall x, derivable_pt_lim (W (S m)) x (cos x ^ S m))).
  { induction m as [|m [IH1 IH2]].
    - split; intros x.
      + exact (derivable_pt_lim_id x).
      + replace (cos x ^ 1) with (cos x) by (simpl; ring). exact (derivable_pt_lim_sin x).
    - split; [exact IH2|]. intros x. apply W_deriv_step, IH1. }
  intros m. apply (H m).
Qed.

Lemma W_derivable m : derivable (W m).
Proof. intros x. exists (cos x ^ m). apply W_deriv. Qed.

Lemma W_derive m x : derive_pt (W m) x (W_derivable m x) = cos x ^ m.
Proof. apply derive_pt_eq_0, W_deriv. Qed.

Lemma W_two_step (P : nat -> Prop) :
  P O -> P 1%nat -> (forall k, P k -> P (S (S k))) -> forall m, P m.
Proof.
  intros H0 H1 HS.
  assert (H : forall m, P m /\ P (S m)).
  { induction m as [|m [IH1 IH2]]; split; auto. }
  intros m. apply (H m).
Qed.

Lemma W_0 m : W m 0 = 0.
Proof.
  induction m as [| |k IH] using W_two_step.
  - reflexivity.
  - simpl. apply sin_0.
  - rewrite W_SS, IH, sin_0. unfold Rdiv. ring.
Qed.

Lemma W_opp m x : W m (- x) = - W m x.
Proof.
  induction m as [| |k IH] using W_two_step.
  - reflexivity.
  - simpl. apply sin_neg.
  - rewrite !W_SS, IH, sin_neg, cos_neg. unfold Rdiv. ring.
Qed.

Lemma W_half_turn k :
  W (S (S k)) (PI / 2) = INR (S k) / INR (S (S k)) * W k (PI / 2).
Proof.
  rewrite W_SS, cos_PI2, pow_ne_zero by discriminate. unfold Rdiv. ring.
Qed.

(** Wallis: [(m + 1) W_(m+1) W_m = pi / 2] at [pi / 2]. *)
Lemma W_product m : INR (S m) * W (S m) (PI / 2) * W m (PI / 2) = PI / 2.
Proof.
  induction m as [|m IH].
  - simpl. rewrite sin_PI2. lra.
  - rewrite W_half_turn.
    assert (Hn : INR (S (S m)) <> 0) by (apply not_0_INR; discriminate).
    rewrite <- IH at 3. set (p := PI / 2). field. exact Hn.
Qed.

Lemma cos_even_pow_nonneg k x : 0 <= cos x ^ (2 * k).
Proof. rewrite pow_Rsqr. apply pow_le, Rle_0_sqr. Qed.

Lemma W_even_increasing k : forall x y, x <= y -> W (2 * k) x <= W (2 * k) y.
Proof.
  apply (nonneg_derivative_1 (W (2 * k)) (W_derivable (2 * k))).
  intros x. rewrite W_derive. apply cos_even_pow_nonneg.
Qed.

Lemma W_even_nonneg k : 0 <= W (2 * k) (PI / 2).
Proof.
  rewrite <- (W_0 (2 * k)). apply W_even_increasing.
  pose proof PI_RGT_0. lra.
Qed.

(** On [0, pi/2] the higher power of the cosine is the smaller one. *)
Lemma W_step_down m : W (S m) (PI / 2) <= W m (PI / 2).
Proof.
  set (D := (W m - W (S m))%F).
  assert (HD : forall x, derivable_pt_lim D x (cos x ^ m - cos x ^ S m)).
  { intros x. apply derivable_pt_lim_minus; apply W_deriv. }
  assert (pr : derivable D) by (intros x; eexists; apply HD).
  assert (H : D 0 <= D (PI / 2)).
  { apply (derive_increasing_interv_var 0 (PI / 2) D pr).
    - pose proof PI_RGT_0. lra.
    - intros t Ht. rewrite (derive_pt_eq_0 _ _ _ (pr t) (HD t)).
      assert (Hc : 0 < cos t) by (apply cos_gt_0; lra).
      pose proof (COS_bound t) as [_ Hc1].
      assert (Hp : 0 <= cos t ^ m) by (apply pow_le; lra).
      simpl. nra.
    - pose proof PI_RGT_0. lra.
    - pose proof PI_RGT_0. lra.
    - pose proof PI_RGT_0. lra. }
  unfold D, minus_fct in H. rewrite !W_0 in H. lra.
Qed.

(** The even Wallis integral is at most [sqrt (pi / (4 (j + 1)))]. *)
Lemma W_even_bound j :
  W (2 * S j) (PI / 2) * W (2 * S j) (PI / 2) <= PI / (4 * INR (S j)).
Proof.
  replace (2 * S j)%nat with (S (S (2 * j))) by lia.
  pose proof (W_product (S (2 * j))) as Hp.
  pose proof (W_step_down (S (2 * j))) as Hd.
  assert (H0 : 0 <= W (S (S (2 * j))) (PI / 2)).
  { replace (S (S (2 * j))) with (2 * S j)%nat by lia. apply W_even_nonneg. }
  assert (Hn : INR (S (S (2 * j))) = 2 * INR (S j)).
  { replace (S (S (2 * j))) with (2 * S j)%nat by lia. rewrite mult_INR.
    change (INR 2) with (1 + 1). lra. }
  assert (Hj : 0 < INR (S j)) by (apply lt_0_INR; lia).
  rewrite Hn in Hp.
  set (a := W (S (S (2 * j))) (PI / 2)) in *. set (b := W (S (2 * j)) (PI / 2)) in *.
  assert (Hab : a * a <= a * b) by nra.
  assert (E : a * b = PI / (4 * INR (S j))).
  { field_simplify_eq; [|lra]. lra. }
  lra.
Qed.

(** The comparison function: [Psi] has derivative [hh], which dominates
    the Gaussian. *)

Section Comparison.
Variable j : nat.

Let n := S (S j).
Let s := sqrt (INR n).

Lemma s_pos : 0 < s.
Proof. apply sqrt_lt_R0, lt_0_INR. unfold n. lia. Qed.

Lemma s_sqr : s * s = INR n.
Proof. apply sqrt_sqrt, pos_INR. Qed.

Definition Psi (x : R) : R := s * W (2 * S j) (atan (x / s)).

Definition hh (x : R) : R := (/ (1 + (x / s) ^ 2)) ^ n.

Lemma cos_atan_sqr y : cos (atan y) * cos (atan y) = / (1 + y ^ 2).
Proof.
  rewrite cos_atan.
  assert (H : 0 < 1 + y²) by (unfold Rsqr; nra).
  pose proof (sqrt_lt_R0 _ H) as Hs. pose proof (sqrt_sqrt (1 + y²) (Rlt_le _ _ H)) as Hq.
  replace (1 + y ^ 2) with (1 + y²) by (unfold Rsqr; ring).
  rewrite <- Hq at 3. field. lra.
Qed.

Lemma Psi_deriv x : derivable_pt_lim Psi x (hh x).
Proof.
  assert (H1 : derivable_pt_lim (fun y => y / s) x (1 / s)).
  { exact (derivable_pt_lim_div_scal id x 1 s (derivable_pt_lim_id x)). }
  assert (H2 : derivable_pt_lim (fun y => atan (y / s)) x (/ (1 + (x / s) ^ 2) * (1 / s))).
  { exact (derivable_pt_lim_comp (fun y => y / s) atan x _ _ H1
             (derivable_pt_lim_atan (x / s))). }
  assert (H3 : derivable_pt_lim (fun y => W (2 * S j) (atan (y / s))) x
                 (cos (atan (x / s)) ^ (2 * S j) * (/ (1 + (x / s) ^ 2) * (1 / s)))).
  { exact (derivable_pt_lim_comp (fun y => atan (y / s)) (W (2 * S j)) x _ _ H2
             (W_deriv (2 * S j) (atan (x / s)))). }
  pose proof (derivable_pt_lim_scal _ s x _ H3) as H4.
  replace (hh x)
    with (s * (cos (atan (x / s)) ^ (2 * S j) * (/ (1 + (x / s) ^ 2) * (1 / s)))).
  - exact H4.
  - unfold hh, n. rewrite pow_Rsqr. unfold Rsqr at 1. rewrite cos_atan_sqr.
    set (a := / (1 + (x / s) ^ 2)).
    pose proof s_pos. rewrite <- !tech_pow_Rmult. field. lra.
Qed.

Lemma Psi_derivable : derivable Psi.
Proof. intros x. exists (hh x). apply Psi_deriv. Qed.

Lemma Psi_derive x : derive_pt Psi x (Psi_derivable x) = hh x.
Proof. apply derive_pt_eq_0, Psi_deriv. Qed.

Lemma Psi_0 : Psi 0 = 0.
Proof.
  unfold Psi. replace (0 / s) with 0 by (unfold Rdiv; ring).
  rewrite atan_0, W_0. ring.
Qed.

Lemma exp_pow_nat v m : exp v ^ m = exp (INR m * v).
Proof.
  induction m as [|m IH].
  - simpl. rewrite Rmult_0_l. symmetry. apply exp_0.
  - rewrite S_INR. simpl pow. rewrite IH, <- exp_plus. f_equal. ring.
Qed.

Lemma gauss_le_hh x : exp (- (x * x)) <= hh x.
Proof.
  unfold hh. set (v := (x / s) ^ 2).
  assert (Hv : 0 <= v) by (unfold v; simpl; nra).
  assert (Hxv : INR n * v = x * x).
  { unfold v. rewrite <- s_sqr. pose proof s_pos. field. lra. }
  rewrite pow_inv, exp_Ropp, <- Hxv, <- exp_pow_nat.
  apply Rinv_le_contravar.
  - apply pow_lt. lra.
  - apply pow_incr. split; [lra|]. apply exp_ineq1_le.
Qed.

Lemma hh_continuity : continuity hh.
Proof.
  intros x. apply derivable_continuous_pt. unfold hh.
  assert (Hd : forall y, 1 + (y / s) ^ 2 <> 0).
  { intros y. assert (0 <= (y / s) ^ 2) by (simpl; nra). lra. }
  reg. apply Hd.
Qed.

End Comparison.

(** The Gaussian integral stays below [sqrt pi / 2]. *)

Lemma continuity_ext (f g : R -> R) :
  (forall x, f x = g x) -> continuity g -> continuity f.
Proof.
  intros E Hg x. specialize (Hg x).
  unfold continuity_pt, continue_in, limit1_in, limit_in in *.
  intros eps He. destruct (Hg eps He) as (alp & Ha & H).
  exists alp. split; [exact Ha|]. intros y Hy. rewrite !E. now apply H.
Qed.

Definition Psi_C1 (j : nat) : C1_fun :=
  @mkC1 (Psi j) (Psi_derivable j)
    (continuity_ext (derive (Psi j) (Psi_derivable j)) (hh j) (Psi_derive j) (hh_continuity j)).

Lemma gauss_integral_le j a b :
  a <= b -> RiemannInt (gauss_integrable a b) <= Psi j b - Psi j a.
Proof.
  intros Hab.
  pose proof (FTC_Riemann (Psi_C1 j) (RiemannInt_P32 (Psi_C1 j) a b)) as HF.
  cbn [c1 Psi_C1] in HF. rewrite <- HF.
  apply RiemannInt_P19; [exact Hab|].
  intros x _. simpl. unfold derive. rewrite Psi_derive. apply gauss_le_hh.
Qed.

Lemma gauss_integral_nonneg a b : a <= b -> 0 <= RiemannInt (gauss_integrable a b).
Proof.
  intros Hab.
  pose proof (RiemannInt_P19 (f := fct_cte 0) (g := gauss)
                (RiemannInt_P14 a b 0) (gauss_integrable a b) Hab) as H.
  rewrite RiemannInt_P15 in H. rewrite Rmult_0_l in H. apply H.
  intros x _. unfold fct_cte, gauss. left. apply exp_pos.
Qed.

Lemma Psi_bounds j x :
  - (sqrt (INR (S (S j))) * W (2 * S j) (PI / 2)) <= Psi j x
  <= sqrt (INR (S (S j))) * W (2 * S j) (PI / 2).
Proof.
  unfold Psi. pose proof (s_pos j) as Hs.
  pose proof (atan_bound (x / sqrt (INR (S (S j))))) as [Hl Hu].
  pose proof (W_even_increasing (S j) _ _ (Rlt_le _ _ Hu)) as H1.
  assert (Hl' : - (PI / 2) <= atan (x / sqrt (INR (S (S j))))) by lra.
  pose proof (W_even_increasing (S j) _ _ Hl') as H2. rewrite W_opp in H2.
  split; nra.
Qed.

(** The square of the integral from 0 to [x], for every [j]. *)
Lemma gauss_integral_sqr_le j x :
  RiemannInt (gauss_integrable 0 x) * RiemannInt (gauss_integrable 0 x)
  <= PI / 4 * (1 + / INR (S j)).
Proof.
  set (I := RiemannInt (gauss_integrable 0 x)).
  set (B := sqrt (INR (S (S j))) * W (2 * S j) (PI / 2)).
  assert (HI : - B <= I <= B).
  { destruct (Rle_dec 0 x) as [Hx|Hx].
    - pose proof (gauss_integral_le j 0 x Hx) as H1. rewrite Psi_0 in H1.
      pose proof (gauss_integral_nonneg 0 x Hx) as H2.
      pose proof (Psi_bounds j x) as [_ H3].
      pose proof (Psi_bounds j 0) as [H4 H5]. rewrite Psi_0 in H4, H5.
      unfold I, B. split; lra.
    - assert (Hx' : x <= 0) by lra.
      pose proof (gauss_integral_le j x 0 Hx') as H1. rewrite Psi_0 in H1.
      pose proof (gauss_integral_nonneg x 0 Hx') as H2.
      pose proof (Psi_bounds j x) as [H3 _].
      unfold I. rewrite (RiemannInt_P8 (gauss_integrable 0 x) (gauss_integrable x 0)).
      unfold B. split; lra. }
  assert (HB : B * B <= PI / 4 * (1 + / INR (S j))).
  { unfold B. pose proof (W_even_bound j) as Hw. pose proof (s_sqr j) as Hq.
    cbv zeta in Hq.
    set (s := sqrt (INR (S (S j)))) in *. set (w := W (2 * S j) (PI / 2)) in *.
    assert (Hj : 0 < INR (S j)) by (apply lt_0_INR; lia).
    replace (s * w * (s * w)) with (INR (S (S j)) * (w * w)) by (rewrite <- Hq; ring).
    rewrite (S_INR (S j)).
    assert (Hww : 0 <= w * w) by nra.
    apply Rle_trans with ((INR (S j) + 1) * (PI / (4 * INR (S j)))).
    - apply Rmult_le_compat_l; [lra | exact Hw].
    - right. field. lra. }
  nra.
Qed.

Lemma gauss_integral_sqr x :
  RiemannInt (gauss_integrable 0 x) * RiemannInt (gauss_integrable 0 x) <= PI / 4.
Proof.
  set (I := RiemannInt (gauss_integrable 0 x)).
  destruct (Rle_dec (I * I) (PI / 4)) as [H|H]; [exact H|]. exfalso.
  assert (Hgt : PI / 4 < I * I) by lra.
  pose proof PI_RGT_0 as Hpi.
  assert (He : 0 < (I * I - PI / 4) * (4 / PI)).
  { apply Rmult_lt_0_compat; [lra|]. apply Rdiv_lt_0_compat; lra. }
  destruct (archimed_cor1 _ He) as (N & HN & Hpos).
  destruct N as [|j]; [lia|].
  pose proof (gauss_integral_sqr_le j x) as Hb. fold I in Hb.
  assert (Hlt : PI / 4 * (1 + / INR (S j)) < PI / 4 * (1 + (I * I - PI / 4) * (4 / PI))).
  { apply Rmult_lt_compat_l; lra. }
  assert (E : PI / 4 * (1 + (I * I - PI / 4) * (4 / PI)) = I * I) by (field; lra).
  lra.
Qed.

(** [erf] and the normal CDF are within their ranges. *)
Lemma erf_range x : -1 <= erf x <= 1.
Proof.
  unfold erf. pose proof (gauss_integral_sqr x) as H.
  set (I := RiemannInt (gauss_integrable 0 x)) in *.
  pose proof PI_RGT_0 as Hpi.
  assert (Hs : 0 < sqrt PI) by (apply sqrt_lt_R0; exact Hpi).
  assert (Hq : sqrt PI * sqrt PI = PI) by (apply sqrt_sqrt; lra).
  assert (Hsq : (2 / sqrt PI * I) * (2 / sqrt PI * I) <= 1).
  { replace ((2 / sqrt PI * I) * (2 / sqrt PI * I)) with (4 / PI * (I * I)).
    - apply Rle_trans with (4 / PI * (PI / 4)).
      + apply Rmult_le_compat_l; [|exact H]. left. apply Rdiv_lt_0_compat; lra.
      + right. field. lra.
    - rewrite <- Hq at 1. field. lra. }
  split; nra.
Qed.

Lemma norm_cdf_range z : 0 <= norm_cdf z <= 1.
Proof. unfold norm_cdf. pose proof (erf_range (z / sqrt 2)). lra. Qed.

Lemma clamp_id v : 0 <= v <= 1 -> Rmin (Rmax v 0) 1 = v.
Proof. intros [H0 H1]. rewrite Rmax_left by exact H0. now rewrite Rmin_left. Qed.

Lemma clamp_below_half v : v < 1 / 2 -> Rmin (Rmax v 0) 1 < 1 / 2.
Proof.
  intros Hv. apply Rle_lt_trans with (Rmax v 0); [apply Rmin_l|].
  apply Rmax_lub_lt; lra.
Qed.

(** $100,000 is both the spot price and the strike; at a basis of one
    half, a volatility of 1 and one year to expiry the claimed
    standardized value is 0. *)
Lemma z_score_half : z_score 100000 100000 1 (1 / 2) 1 = 0.
Proof.
  unfold z_score. replace (100000 / 100000) with 1 by lra. rewrite ln_1, sqrt_1.
  unfold Rdiv. lra.
Qed.

(** C8, as stated, fails.  [KellyGBMModel.evaluate] has no drift term:
    with spot and strike at $100,000, volatility 1 and one year to
    expiry, and a reference basis of 1/2, the claimed value is the
    normal CDF at 0, one half, and the code returns less. *)
Lemma fair_value_counterexample :
  norm_cdf (z_score 100000 100000 1 (1 / 2) 1) = 1 / 2 /\
  p_above 100000 100000 1 1 < 1 / 2.
Proof.
  split.
  - rewrite z_score_half. apply norm_cdf_0.
  - unfold p_above. apply clamp_below_half, norm_cdf_neg.
    rewrite !(Rmax_left 100000 1e-9) by lra.
    replace (100000 / 100000) with 1 by lra. rewrite ln_1, sqrt_1.
    unfold Rdiv. lra.
Qed.

(** C8, amended.  In [probability_price_above], for a spot price of at
    least 1e-9 and a volatility of at least 1e-6 (the floors the code
    applies; every reference market built by [get_reference_market]
    has a volatility of at least 0.05), strike > 0, t > 0 and drift
    equal to the annualized reference basis, the probability of
    finishing at or above the strike is the standard-normal CDF of
    [(ln(S/K) + (mu - sigma^2/2) t) / (sigma sqrt(t))], and the
    at-or-below probability is one minus it.  In
    [KellyGBMModel.evaluate], for spot and strike at least 1e-9, the
    same holds with the drift term absent, that is with the drift taken
    as 0 whatever the reference basis.  The CDF lies in [0, 1], so the
    code's clamp into that range changes nothing. *)
Theorem fair_value_formula :
  (forall ref strike t,
     1e-9 <= spot ref -> 1e-6 <= sigma_annual ref -> 0 < strike -> 0 < t ->
     let p := norm_cdf (z_score (spot ref) strike (sigma_annual ref) (basis_annual ref) t) in
     probability_price_above ref strike t = p /\
     model_yes above_or_hit (probability_price_above ref strike t) = p /\
     model_yes below_or_hit (probability_price_above ref strike t) = 1 - p) /\
  (forall spot_px perp sigma_hour,
     let ref := get_reference_market spot_px perp sigma_hour in
     0.05 <= sigma_annual ref /\
     spot ref = spot_px /\
     basis_annual ref
     = ((match perp with Some px => px | None => spot_px end) / spot_px - 1) * 365) /\
  (forall spot_ strike sigma t,
     1e-9 <= spot_ -> 1e-9 <= strike -> 0 < sigma -> 0 < t ->
     let p := norm_cdf (z_score spot_ strike sigma 0 t) in
     p_above spot_ strike sigma t = p /\
     p_yes above_or_hit spot_ strike sigma t = p /\
     p_yes below_or_hit spot_ strike sigma t = 1 - p) /\
  (forall z, 0 <= norm_cdf z <= 1).
Proof.
  split; [|split; [|split]].
  - intros ref strike t Hs Hv Hk Ht p.
    assert (E : probability_price_above ref strike t = p).
    { unfold probability_price_above. cbv zeta.
      rewrite (Rmax_left (spot ref)) by exact Hs.
      rewrite (Rmax_left (sigma_annual ref)) by exact Hv.
      rewrite clamp_id by apply norm_cdf_range.
      unfold p, z_score. f_equal. unfold Rdiv. f_equal. lra. }
    simpl. rewrite E. repeat split.
  - intros spot_px perp sigma_hour. cbv zeta. simpl.
    split; [unfold get_kraken_sigma_annual; apply Rmax_r | split; reflexivity].
  - intros spot_ strike sigma t Hs Hk Hv Ht p.
    assert (E : p_above spot_ strike sigma t = p).
    { unfold p_above. cbv zeta.
      rewrite (Rmax_left spot_) by exact Hs.
      rewrite (Rmax_left strike) by exact Hk.
      rewrite clamp_id by apply norm_cdf_range.
      unfold p, z_score. f_equal. unfold Rdiv. f_equal. lra. }
    simpl. rewrite E. repeat split.
  - apply norm_cdf_range.
Qed.

(** Spot $100,000 with the perpetual at $100,137, an hourly deviation
    of 0.5%. *)
Definition drifting_ref : RefMarket := get_reference_market 100000 (Some 100137) 0.005.

Lemma fair_value_formula_witness :
  probability_price_above drifting_ref 120000 (1 / 4)
  = norm_cdf (z_score (spot drifting_ref) 120000 (sigma_annual drifting_ref)
                (basis_annual drifting_ref) (1 / 4)).
Proof.
  apply (proj1 fair_value_formula drifting_ref 120000 (1 / 4)); try lra.
  - simpl. lra.
  - apply Rle_trans with 0.05; [lra|].
    apply (proj1 (proj2 fair_value_formula) 100000 (Some 100137) 0.005).
Defined.

End FairValueProps.

(** * Further properties of the code *)

(** ** Order-book walk: how much is filled, and at what price *)

Module FillMore.
Import Fill FillProps.

Definition consumable_count (asks : list Level) : nat := length (List.filter consumable asks).

Lemma consumable_count_cons l rest :
  consumable_count (l :: rest) = ((if consumable l then 1 else 0) + consumable_count rest)%nat.
Proof. unfold consumable_count. simpl. now destruct (consumable l). Qed.

(** Levels that cannot be consumed in front of a book do not change the
    walk. *)
Lemma walk_app_skips skipped asks : forall w,
  Forall (fun l => consumable l = false) skipped -> walk (skipped ++ asks) w = walk asks w.
Proof.
  induction skipped as [|l rest IH]; intros w Hall; simpl; [reflexivity|].
  inversion Hall as [|? ? Hl Hrest]; subst. unfold consumable in Hl.
  destruct (price l) as [px|]; [|now apply IH]. destruct (size l) as [sz|]; [|now apply IH].
  destruct (leb px 0 || leb sz 0); [now apply IH | discriminate].
Qed.

(** The walk counts one level per consumable level it visits. *)
Lemma walk_level_count asks : forall w,
  (levels w <= levels (walk asks w) <= levels w + consumable_count asks)%nat.
Proof.
  induction asks as [|l rest IH]; intros w.
  - simpl. unfold consumable_count. simpl. lia.
  - rewrite consumable_count_cons. cbn [walk]. unfold consumable.
    destruct (price l) as [px|]; [|specialize (IH w); lia].
    destruct (size l) as [sz|]; [|specialize (IH w); lia].
    destruct (leb px 0 || leb sz 0); cbn [negb]; [specialize (IH w); lia|].
    cbv zeta.
    match goal with |- context [leb ?a eps] => destruct (leb a eps) end.
    + cbn [levels]. lia.
    + match goal with |- context [walk rest ?w1] => specialize (IH w1) end.
      cbn [levels] in IH. lia.
Qed.

(** As long as no level was used nothing was spent. *)
Lemma walk_levels asks : forall w,
  (levels w = 0%nat -> spent w == 0) ->
  levels (walk asks w) = 0%nat -> spent (walk asks w) == 0.
Proof.
  induction asks as [|l rest IH]; intros w Hw; simpl; [exact Hw|].
  destruct (price l); [|now apply IH]. destruct (size l); [|now apply IH].
  destruct (leb _ 0 || leb _ 0); [now apply IH|].
  match goal with |- context [leb ?a eps] => destruct (leb a eps) end; simpl.
  - discriminate.
  - apply IH. simpl. discriminate.
Qed.

(** A request that the first consumable level covers stops the walk at
    that level. *)
Lemma walk_top_level l rest usd px sz :
  price l = Some px -> size l = Some sz -> 0 < px -> 0 < sz -> usd <= px * sz ->
  walk (l :: rest) (start usd)
  = {| remaining_usd := usd - usd; spent := 0 + usd; acquired := 0 + usd / px;
       levels := 1 |}.
Proof.
  intros Hp Hs Hpx Hsz Hcap. cbn [walk]. rewrite Hp, Hs.
  assert (E1 : leb px 0 = false) by now apply leb_false.
  assert (E2 : leb sz 0 = false) by now apply leb_false.
  rewrite E1, E2. cbn [orb]. cbv zeta. cbn [start remaining_usd spent acquired levels].
  assert (Et : fmin usd (px * sz) = usd).
  { destruct (fmin_spec usd (px * sz)) as [[Hlt _]|[_ E]]; [exfalso; lra | exact E]. }
  rewrite Et.
  assert (Eb : leb (usd - usd) eps = true) by (apply leb_true; unfold eps; lra).
  now rewrite Eb.
Qed.

(** X1. A fill uses at least one level and at most as many levels as
    the book has levels of positive price and size.  When the first
    such level alone covers the request ([usd <= price * size]), a fill
    is taken from that level only: it spends exactly the amount
    requested, for [usd / price] shares, whatever entries without
    positive price and size stand in front of it and whatever follows. *)
Theorem top_level_fill :
  (forall asks usd r,
     simulate_buy (Some asks) usd = Some r ->
     (1 <= levels_used r <= consumable_count asks)%nat) /\
  (forall skipped l rest usd px sz r,
     Forall (fun l => consumable l = false) skipped ->
     price l = Some px -> size l = Some sz -> 0 < px -> 0 < sz -> usd <= px * sz ->
     simulate_buy (Some (skipped ++ l :: rest)) usd = Some r ->
     spent_usd r == usd /\ shares r == usd / px /\ levels_used r = 1%nat).
Proof.
  split.
  - intros asks usd r H. apply simulate_buy_some in H. cbv zeta in H.
    destruct H as (Husd & Ha & Hs & ->). cbn [levels_used].
    pose proof (walk_level_count asks (start usd)) as Hc. cbn [start levels] in Hc.
    split; [|lia].
    pose proof (walk_levels asks (start usd)) as Hl. cbn [start levels spent] in Hl.
    destruct (levels (walk asks (start usd))) eqn:El; [|lia].
    exfalso. assert (spent (walk asks (start usd)) == 0) by (apply Hl; [lra|reflexivity]). lra.
  - intros skipped l rest usd px sz r Hskip Hp Hs Hpx Hsz Hcap H.
    apply simulate_buy_some in H. cbv zeta in H.
    destruct H as (_ & _ & _ & ->).
    rewrite (walk_app_skips skipped (l :: rest) (start usd) Hskip).
    rewrite (walk_top_level l rest usd px sz Hp Hs Hpx Hsz Hcap).
    cbn [spent_usd shares levels_used spent acquired levels].
    split; [lra|]. split; [lra | reflexivity].
Qed.

(** An entry of size 0 at 0.30 in front of 100 shares at 0.40 and 50 at
    0.45. *)
Definition stale_top : list Level := [lvl (3 # 10) 0; lvl (4 # 10) 100; lvl (45 # 100) 50].

Lemma top_level_fill_witness :
  match simulate_buy (Some stale_top) 10 with
  | Some r => spent_usd r == 10 /\ shares r == 10 / (4 # 10) /\ levels_used r = 1%nat
  | None => False
  end.
Proof.
  destruct (simulate_buy (Some stale_top) 10) as [r|] eqn:E.
  - apply (proj2 top_level_fill [lvl (3 # 10) 0] (lvl (4 # 10) 100) [lvl (45 # 100) 50]
             10 (4 # 10) 100 r); try reflexivity; try exact E.
    + constructor; [reflexivity | constructor].
    + vm_compute. discriminate.
  - vm_compute in E. discriminate.
Defined.

End FillMore.

(** ** Sizers *)

Module SizersProps.
Import Engine Sizers.

Example has_colon_plugin_path :
  has_colon "plugins.adaptive_risk_sizer:AdaptiveRiskSizer" = true /\ has_colon "kelly" = false.
Proof. split; reflexivity. Qed.

Lemma pos_le_fmax0 x c : 0 < x -> x <= fmax c 0 -> x <= c.
Proof. minmax; intros; lra. Qed.

(** X3. Whatever built-in sizer [make_sizer] builds ([fixed],
    [equal_weight], [kelly]) and the [adaptive_risk] plugin: an order, when one is
    returned, is for a positive amount of at most the available cash
    and carries the side and token of the signal; no order is returned
    when cash is zero or negative. *)
Theorem sizer_within_cash :
  forall (sizer : BaseSizer),
    (exists load name kwargs,
       has_colon name = false /\ make_sizer load name kwargs = Ok sizer) \/
    (exists risk_fraction max_usd, sizer = AdaptiveRiskSizer risk_fraction max_usd) ->
    forall signal cash_,
      (forall order, size sizer signal cash_ = Some order ->
         0 < order_usd order <= cash_ /\
         ord_side order = sig_side signal /\ ord_token_id order = sig_token_id signal) /\
      (cash_ <= 0 -> size sizer signal cash_ = None).
Proof.
  intros sizer Hs signal cash_.
  assert (Hcases :
    (exists usd, sizer = FixedSizer usd) \/ (exists slots, sizer = EqualWeightSizer slots) \/
    (exists f m, sizer = KellySizer (Kelly.init f m)) \/
    (exists rf m, sizer = AdaptiveRiskSizer rf m)).
  { destruct Hs as [(load & name & kwargs & Hc & H)|H]; [|auto].
    unfold make_sizer in H. rewrite Hc in H.
    destruct (String.eqb name "fixed");
      [destruct kwargs; inversion H; eauto|].
    destruct (String.eqb name "equal_weight");
      [destruct kwargs; inversion H; eauto|].
    destruct (String.eqb name "kelly");
      [destruct kwargs; inversion H; eauto 6|]. discriminate. }
  destruct Hcases as [(usd & ->)|[(slots & ->)|[(f & m & ->)|(rf & m & ->)]]]; simpl.
  - split.
    + intros order. destruct (leb _ 0) eqn:E; [discriminate|].
      intros H. injection H as <-. simpl. apply leb_false in E.
      split; [|split; reflexivity]. revert E. minmax; intros; lra.
    + intros Hc. assert (E : leb (fmin usd (fmax cash_ 0)) 0 = true).
      { apply leb_true. minmax; lra. }
      now rewrite E.
  - assert (Hz : 1 <= inject_Z (Z.max slots 1)).
    { change 1 with (inject_Z 1). rewrite <- Zle_Qle. lia. }
    assert (Hi : 0 < / inject_Z (Z.max slots 1)) by (apply Qinv_lt_0_compat; lra).
    assert (Hd : forall x, 0 <= x -> x / inject_Z (Z.max slots 1) <= x).
    { intros x Hx. apply Qle_shift_div_r; [lra|]. nra. }
    split.
    + intros order. destruct (leb _ 0) eqn:E; [discriminate|].
      intros H. injection H as <-. simpl. apply leb_false in E.
      split; [|split; reflexivity]. split; [exact E|].
      revert E. unfold Qdiv. minmax; intros E.
      * exfalso. nra.
      * apply (Hd cash_). lra.
    + intros Hc. assert (E : leb (fmax cash_ 0 / inject_Z (Z.max slots 1)) 0 = true).
      { apply leb_true. unfold Qdiv. minmax; nra. }
      now rewrite E.
  - unfold Kelly.size. cbv zeta. split.
    + intros order. destruct (leb _ 0) eqn:E; [discriminate|].
      intros H. injection H as <-. simpl. apply leb_false in E.
      split; [|split; reflexivity]. split; [exact E|].
      apply pos_le_fmax0; [exact E | apply fmin_ub_r].
    + intros Hc.
      match goal with |- context [leb ?o 0] => assert (E : leb o 0 = true) end.
      { apply leb_true. eapply Qle_trans; [apply fmin_ub_r|]. minmax; lra. }
      now rewrite E.
  - split.
    + intros order. destruct (leb _ 0) eqn:E; [discriminate|].
      intros H. injection H as <-. simpl. apply leb_false in E.
      split; [|split; reflexivity]. split; [exact E|].
      apply pos_le_fmax0; [exact E | apply fmin_ub_r].
    + intros Hc.
      match goal with |- context [leb ?o 0] => assert (E : leb o 0 = true) end.
      { apply leb_true. eapply Qle_trans; [apply fmin_ub_r|]. minmax; lra. }
      now rewrite E.
Qed.

Definition sample_signal : Signal :=
  {| sig_side := "buy_yes"; sig_token_id := "1"; market_price := 4 # 10;
     model_price := 6 # 10; edge := 2 # 10; confidence := 1 |}.

Lemma sizer_within_cash_witness :
  match size (EqualWeightSizer 10) sample_signal 1000 with
  | Some order => 0 < order_usd order <= 1000
  | None => False
  end.
Proof.
  destruct (size (EqualWeightSizer 10) sample_signal 1000) as [order|] eqn:E.
  - apply (sizer_within_cash (EqualWeightSizer 10)
             (or_introl (ex_intro _ (fun _ _ => Raised) (ex_intro _ "equal_weight"
                (ex_intro _ (equal_weight_kwargs 10) (conj eq_refl eq_refl)))))
             sample_signal 1000). exact E.
  - vm_compute in E. discriminate.
Defined.

End SizersProps.

(** ** Kelly: the two implementations, the formula, the order *)

Module KellyMore.
Import Kelly KellyProps.

Lemma one_minus_q m : 1 # 1000000 <= 1 - clamp_q m.
Proof. destruct (clamp_q_range m). lra. Qed.

Lemma clamp_p_range p : 0 <= clamp_p p <= 1.
Proof. unfold clamp_p. minmax; lra. Qed.

Lemma clamp_p_mono p1 p2 : p1 <= p2 -> clamp_p p1 <= clamp_p p2.
Proof. unfold clamp_p. intros. minmax; lra. Qed.

Lemma ratio_mono a b d : 0 < d -> a <= b -> a / d <= b / d.
Proof.
  intros Hd Hab. unfold Qdiv.
  assert (0 < / d) by (apply Qinv_lt_0_compat; exact Hd). nra.
Qed.

Lemma ratio_le_1 a d : 0 < d -> a <= d -> a / d <= 1.
Proof. intros Hd Ha. apply Qle_shift_div_r; [exact Hd | lra]. Qed.

Lemma ratio_pos a d : 0 < d -> 0 < a -> 0 < a / d.
Proof.
  intros Hd Ha. unfold Qdiv.
  assert (0 < / d) by (apply Qinv_lt_0_compat; exact Hd). nra.
Qed.

Ltac split_fmax :=
  repeat match goal with
  | |- context [fmax 0 ?x] =>
      let H := fresh "Hmax" in let E := fresh "Emax" in
      destruct (fmax_spec 0 x) as [[H E]|[H E]]; rewrite E
  end.

Lemma clamp01_id r : 0 <= r <= 1 -> fmax 0 (fmin 1 r) == r.
Proof.
  intros [H0 H1].
  destruct (fmin_spec 1 r) as [[Ha Ea]|[Ha Ea]]; rewrite Ea;
    split_fmax; lra.
Qed.

Lemma clamp01_pos r : 0 < r -> 0 < fmax 0 (fmin 1 r).
Proof.
  intros H.
  destruct (fmin_spec 1 r) as [[Ha Ea]|[Ha Ea]]; rewrite Ea;
    split_fmax; lra.
Qed.

Lemma clamp01_mono r1 r2 : r1 <= r2 -> fmax 0 (fmin 1 r1) <= fmax 0 (fmin 1 r2).
Proof.
  intros H.
  destruct (fmin_spec 1 r1) as [[Ha Ea]|[Ha Ea]]; rewrite Ea;
    destruct (fmin_spec 1 r2) as [[Hb Eb]|[Hb Eb]]; rewrite Eb;
    split_fmax; lra.
Qed.

(** X4. The Kelly fraction of [spread_monitor.evaluate_market] is the
    one of [KellySizer.size] on every input: the floor under the
    denominator in the monitor never applies, because the clamped
    market price leaves [1 - q] at 1e-6 or more. *)
Theorem kelly_implementations_agree :
  forall market_px model_px, kelly_full market_px model_px = full_kelly market_px model_px.
Proof.
  intros m p. unfold kelly_full, full_kelly. cbv zeta.
  pose proof (one_minus_q m) as H.
  destruct (fmax_spec (1 - clamp_q m) (1 # 1000000)) as [[Hlt E]|[Hle E]]; rewrite E.
  - exfalso. lra.
  - reflexivity.
Qed.

Lemma full_kelly_interior m p :
  clamp_q m <= p -> full_kelly m p == (clamp_p p - clamp_q m) / (1 - clamp_q m).
Proof.
  intros Hp. destruct (clamp_q_range m) as [Hl Hu].
  assert (Hd : 0 < 1 - clamp_q m) by lra.
  assert (Hcp : clamp_q m <= clamp_p p) by (unfold clamp_p; minmax; lra).
  unfold full_kelly. cbv zeta.
  pose proof (clamp_p_range p) as [H0 H1].
  apply clamp01_id. split.
  - apply Qle_shift_div_l; [exact Hd | lra].
  - apply ratio_le_1; lra.
Qed.

Lemma full_kelly_pos m p : clamp_q m < p -> 0 < full_kelly m p.
Proof.
  intros Hp. destruct (clamp_q_range m) as [Hl Hu].
  assert (Hlt : clamp_q m < clamp_p p) by (unfold clamp_p; minmax; lra).
  unfold full_kelly. cbv zeta.
  apply clamp01_pos, ratio_pos; lra.
Qed.

Lemma full_kelly_one m p : 1 <= p -> full_kelly m p == 1.
Proof.
  intros Hp. destruct (clamp_q_range m) as [Hl Hu].
  assert (E : clamp_p p == 1) by (unfold clamp_p; minmax; lra).
  rewrite full_kelly_interior by lra.
  rewrite E. field. lra.
Qed.

Lemma full_kelly_mono m p1 p2 : p1 <= p2 -> full_kelly m p1 <= full_kelly m p2.
Proof.
  intros Hp. destruct (clamp_q_range m) as [Hl Hu].
  pose proof (clamp_p_mono p1 p2 Hp) as Hc.
  unfold full_kelly. cbv zeta.
  apply clamp01_mono, ratio_mono; lra.
Qed.

(** X5. With [q] the clamped market price: for a model price [p] of at
    least [q] the full Kelly fraction is [(min(p, 1) - q) / (1 - q)]; it
    is positive as soon as [p > q], equal to 1 as soon as [p >= 1], and
    it never decreases when the model price increases. *)
Theorem kelly_fraction_formula :
  forall market_px,
    let q := clamp_q market_px in
    (forall p, q <= p -> full_kelly market_px p == (clamp_p p - q) / (1 - q)) /\
    (forall p, q < p -> 0 < full_kelly market_px p) /\
    (forall p, 1 <= p -> full_kelly market_px p == 1) /\
    (forall p1 p2, p1 <= p2 -> full_kelly market_px p1 <= full_kelly market_px p2).
Proof.
  intros m q. subst q. repeat split.
  - apply full_kelly_interior.
  - apply full_kelly_pos.
  - apply full_kelly_one.
  - apply full_kelly_mono.
Qed.

Lemma kelly_fraction_formula_witness :
  full_kelly (4 # 10) (6 # 10) == (clamp_p (6 # 10) - clamp_q (4 # 10)) / (1 - clamp_q (4 # 10)).
Proof.
  apply (proj1 (kelly_fraction_formula (4 # 10))). vm_compute. discriminate.
Defined.

(** X6. A signal whose model price is above the clamped market price
    gets an order from a Kelly sizer with positive fraction and cap
    whenever there is cash: the amount is positive, at most the cash
    and at most [max_usd]. *)
Theorem kelly_order_on_edge :
  forall (self : KellySizer) (signal : Signal) (cash : Q),
    0 < fraction self -> 0 < max_usd self -> 0 < cash ->
    clamp_q (market_price signal) < model_price signal ->
    exists order,
      size self signal cash = Some order /\
      0 < order_usd order /\ order_usd order <= cash /\ order_usd order <= max_usd self /\
      order_usd order <= cash * fraction self * full_kelly (market_price signal) (model_price signal).
Proof.
  intros self signal cash Hf Hm Hc Hedge.
  pose proof (full_kelly_pos _ _ Hedge) as Hk.
  unfold size. cbv zeta.
  set (fk := full_kelly (market_price signal) (model_price signal)) in *.
  assert (Hmax : fmax cash 0 = cash).
  { destruct (fmax_spec cash 0) as [[H _]|[_ E]]; [exfalso; lra | exact E]. }
  rewrite Hmax.
  assert (Hprod : 0 < cash * (fraction self * fk)).
  { apply Qmult_lt_0_compat; [exact Hc|]. apply Qmult_lt_0_compat; assumption. }
  set (x := cash * (fraction self * fk)) in *.
  assert (Ho : 0 < fmin3 x (max_usd self) cash /\ fmin3 x (max_usd self) cash <= cash /\
               fmin3 x (max_usd self) cash <= max_usd self /\ fmin3 x (max_usd self) cash <= x).
  { clearbody x. unfold fmin3.
    destruct (fmin_spec x (max_usd self)) as [[Ha Ea]|[Ha Ea]]; rewrite Ea;
      destruct (fmin_spec (max_usd self) cash) as [[Hb Eb]|[Hb Eb]];
      destruct (fmin_spec x cash) as [[Hx Ex]|[Hx Ex]];
      rewrite ?Eb, ?Ex; (split; [|split; [|split]]); lra. }
  destruct Ho as (O1 & O2 & O3 & O4).
  assert (E : leb (fmin3 x (max_usd self) cash) 0 = false) by (apply leb_false; exact O1).
  rewrite E. eexists. split; [reflexivity|]. cbn [order_usd].
  split; [exact O1|]. split; [exact O2|]. split; [exact O3|].
  eapply Qle_trans; [exact O4|]. unfold x. rewrite Qmult_assoc. apply Qle_refl.
Qed.

Lemma kelly_order_on_edge_witness :
  exists order,
    size (init (1 # 4) 250) SizersProps.sample_signal 1000 = Some order /\ 0 < order_usd order.
Proof.
  destruct (kelly_order_on_edge (init (1 # 4) 250) SizersProps.sample_signal 1000)
    as (order & H1 & H2 & _); try (vm_compute; reflexivity).
  exists order. split; assumption.
Defined.

End KellyMore.

(** ** Ledger: what a scan writes, what no command can do *)

Module LedgerMore.
Import Ledger Engine LedgerProps EngineProps.

Lemma fill_facts book usd fill :
  Fill.simulate_buy book usd = Some fill ->
  0 < spent_usd fill /\ 0 < shares fill /\
  spent_usd fill == shares fill * avg_price fill.
Proof.
  destruct book as [asks|]; [|discriminate]. intros H.
  apply FillProps.simulate_buy_some in H. cbv zeta in H.
  destruct H as (Husd & Ha & Hs & ->). simpl.
  split; [lra|]. split; [lra|]. field. lra.
Qed.

(** The row [insert_trade] writes for an entry of [placed_rows]. *)
Definition opened (run id : nat) (row : Placed) : Trade :=
  {| trade_id := id; run_id := run; market_id := p_market_id row;
     market_slug := p_market_slug row; side := p_side row; token_id := p_token_id row;
     entry_price := avg_price (p_fill row); trade_shares := shares (p_fill row);
     notional_usd := spent_usd (p_fill row); trade_model_price := p_model_price row;
     trade_edge := p_edge row; trade_confidence := p_confidence row;
     status := Open; exit_price := None; realized_pnl := None |}.

Fixpoint opened_from (run next : nat) (rows : list Placed) : list Trade :=
  match rows with
  | [] => []
  | row :: rest => opened run next row :: opened_from run (S next) rest
  end.

(** A fill as [simulate_buy] returns it. *)
Definition sound_row (row : Placed) : Prop :=
  0 < spent_usd (p_fill row) /\ 0 < shares (p_fill row) /\
  spent_usd (p_fill row) == shares (p_fill row) * avg_price (p_fill row).

Lemma opened_from_length run rows : forall next, length (opened_from run next rows) = length rows.
Proof. induction rows as [|row rest IH]; intros next; simpl; [reflexivity | now rewrite IH]. Qed.

Lemma opened_from_ids run rows : forall next,
  map trade_id (opened_from run next rows) = seq next (length rows).
Proof. induction rows as [|row rest IH]; intros next; simpl; [reflexivity | now rewrite IH]. Qed.

Lemma opened_from_notional run rows : forall next,
  open_notional (opened_from run next rows) == spent_total rows.
Proof. induction rows as [|row rest IH]; intros next; simpl; [lra | rewrite IH; lra]. Qed.

Lemma opened_from_sound run rows : forall next,
  Forall sound_row rows ->
  Forall (fun t => status t = Open /\ run_id t = run /\ exit_price t = None /\
                   realized_pnl t = None /\ 0 < trade_shares t /\ 0 < notional_usd t /\
                   notional_usd t == trade_shares t * entry_price t)
         (opened_from run next rows).
Proof.
  induction rows as [|row rest IH]; intros next Hall; simpl; constructor.
  - inversion Hall as [|? ? (H1 & H2 & H3) _]; subst. simpl.
    split; [reflexivity|]. split; [reflexivity|]. split; [reflexivity|].
    split; [reflexivity|]. split; [exact H2|]. split; [exact H1 | exact H3].
  - apply IH. now inversion Hall.
Qed.

(** The third loop of [scan_once] in one step. *)
Lemma insert_trades_spec run rows : forall c ids,
  exists c',
    insert_trades c run rows ids = (c', ids ++ seq (S (length (trades (cur c)))) (length rows)) /\
    trades (cur c') = trades (cur c) ++ opened_from run (S (length (trades (cur c)))) rows /\
    account (cur c') = account (cur c) /\
    runs (cur c') = runs (cur c) /\
    (on_disk c = cur c -> on_disk c' = cur c') /\
    (forall P : Db -> Prop,
       (forall d ts, P d -> P (with_trades ts d)) -> P (cur c) ->
       Forall P (durable c) -> Forall P (durable c')).
Proof.
  induction rows as [|row rest IH]; intros c ids; simpl.
  - exists c. rewrite !app_nil_r. repeat split; auto.
  - match goal with |- context [insert_trades ?c1 run rest ?ids1] =>
      destruct (IH c1 ids1) as (c' & E & Ht & Ha & Hr & Hd & Hp) end.
    simpl in *. exists c'. rewrite E.
    rewrite length_app in *. simpl in *. rewrite Nat.add_1_r in *.
    split; [now rewrite <- app_assoc|].
    split; [rewrite Ht, <- app_assoc; reflexivity|].
    split; [exact Ha|]. split; [exact Hr|]. split; [intros _; now apply Hd|].
    intros P Hw Hc Hall. apply Hp; [exact Hw | now apply (Hw (cur c)) |].
    constructor; [now apply (Hw (cur c)) | exact Hall].
Qed.

(** The second loop, for a run that is not left by an exception. *)
Lemma place_orders_spec model sizer fetch_book snapshots :
  forall c cash_ n rows c' cash' n' rows' b,
    place_orders model sizer fetch_book snapshots c cash_ n rows = (c', Ok (cash', n', rows')) ->
    account (cur c) = Some {| starting_bankroll := b; cash := cash_ |} ->
    Forall sound_row rows -> (length rows <= n)%nat ->
    account (cur c') = Some {| starting_bankroll := b; cash := cash' |} /\
    trades (cur c') = trades (cur c) /\
    runs (cur c') = runs (cur c) /\
    cash' + spent_total rows' == cash_ + spent_total rows /\
    Forall sound_row rows' /\
    (length rows' <= n')%nat /\ (n' <= n + length snapshots)%nat.
Proof.
  induction snapshots as [|snap rest IH]; intros c cash_ n rows c' cash' n' rows' b H Ha Hs Hn.
  - simpl in H. injection H as <- <- <- <-.
    repeat match goal with |- _ /\ _ => split end; auto; try reflexivity. simpl. lia.
  - simpl in H.
    assert (Hskip : forall n0, (length rows <= n0)%nat -> (n0 <= S n)%nat ->
              place_orders model sizer fetch_book rest c cash_ n0 rows = (c', Ok (cash', n', rows')) ->
              account (cur c') = Some {| starting_bankroll := b; cash := cash' |} /\
              trades (cur c') = trades (cur c) /\
              runs (cur c') = runs (cur c) /\
              cash' + spent_total rows' == cash_ + spent_total rows /\
              Forall sound_row rows' /\
              (length rows' <= n')%nat /\ (n' <= n + length (snap :: rest))%nat).
    { intros n0 Hl Hu H0. apply (IH _ _ _ _ _ _ _ _ b) in H0; try assumption.
      destruct H0 as (A1 & A2 & A3 & A4 & A6 & A7 & A8).
      repeat match goal with |- _ /\ _ => split end; try assumption. simpl. lia. }
    destruct (evaluate model snap) as [[sig|]|]; [| apply (Hskip n); [lia|lia|exact H] | discriminate].
    destruct (size sizer sig cash_) as [order|]; [| apply (Hskip (S n)); [lia|lia|exact H]].
    destruct (ltb cash_ (order_usd order)) eqn:Hlt; [apply (Hskip (S n)); [lia|lia|exact H]|].
    destruct (fetch_book (ord_token_id order)) as [[book|]|];
      [| apply (Hskip (S n)); [lia|lia|exact H] | discriminate].
    destruct (Fill.simulate_buy book (order_usd order)) as [fill|] eqn:Ef;
      [| apply (Hskip (S n)); [lia|lia|exact H]].
    apply fill_facts in Ef. destruct Ef as (F1 & F3 & F4).
    apply (IH _ _ _ _ _ _ _ _ b) in H.
    + destruct H as (A1 & A2 & A3 & A4 & A6 & A7 & A8).
      split; [exact A1|]. split; [exact A2|]. split; [exact A3|].
      split; [rewrite A4, spent_total_app; simpl; lra|].
      split; [exact A6|].
      split; [exact A7 | simpl; lia].
    + simpl. now rewrite Ha.
    + apply Forall_app. split; [exact Hs|]. constructor; [|constructor].
      split; [exact F1|]. split; [exact F3 | exact F4].
    + rewrite length_app. simpl. lia.
Qed.

(** X7. What a scan that returns has written.  The trades are the old
    rows followed by one open row per placed order, numbered on from
    the old row count, which are the ids returned; every new row has
    positive shares and notional, with notional equal to shares times
    entry price; the cash is the old cash less the notional of the new
    rows; one run row is appended whose counts satisfy signals <=
    opportunities <= markets scanned; everything is committed. *)
Theorem scan_postcondition :
  forall c model sizer fetch_book snapshots c' r a,
    account (cur c) = Some a ->
    scan_once c model sizer fetch_book snapshots = (c', Ok r) ->
    let old := trades (cur c) in
    let new := opened_from (res_run_id r) (S (length old)) (orders_placed r) in
    trades (cur c') = old ++ new /\
    trade_ids r = map trade_id new /\
    trade_ids r = seq (S (length old)) (length (orders_placed r)) /\
    Forall (fun t => status t = Open /\ run_id t = res_run_id r /\ exit_price t = None /\
                     realized_pnl t = None /\ 0 < trade_shares t /\ 0 < notional_usd t /\
                     notional_usd t == trade_shares t * entry_price t) new /\
    account (cur c') = Some {| starting_bankroll := starting_bankroll a; cash := cash_after r |} /\
    cash_after r + open_notional new == cash a /\
    (exists run,
       runs (cur c') = runs (cur c) ++ [run] /\
       res_run_id r = S (length (runs (cur c))) /\
       markets_scanned run = length snapshots /\
       signals run = length new /\
       (signals run <= opportunities run <= markets_scanned run)%nat) /\
    on_disk c' = cur c'.
Proof.
  intros c model sizer fetch_book snapshots c' r a Ha H old new.
  unfold scan_once, get_account in H. rewrite Ha in H.
  destruct (place_orders _ _ _ _ _ _ _ _) as [c1 [[[cash1 n1] rows1]|]] eqn:E; [|discriminate].
  destruct a as [b0 cash0].
  apply (place_orders_spec _ _ _ _ _ _ _ _ _ _ _ _ b0) in E;
    [|exact Ha|constructor|simpl; lia].
  destruct E as (E1 & E2 & E3 & E4 & E6 & E7 & E8). simpl in E4, E8.
  unfold insert_run in H.
  match type of H with context [insert_trades ?c2 ?run rows1 []] =>
    destruct (insert_trades_spec run rows1 c2 []) as (c3 & Ei & I1 & I2 & I3 & I4 & _) end.
  specialize (I4 eq_refl).
  rewrite Ei in H. injection H as <- <-. simpl in *.
  subst new old. simpl. rewrite E2, E3 in *.
  split; [exact I1|]. split; [now rewrite opened_from_ids|]. split; [reflexivity|].
  split; [now apply opened_from_sound|].
  split; [now rewrite I2|].
  split; [rewrite opened_from_notional; lra|].
  split; [|exact I4].
  eexists. split; [rewrite I3; reflexivity|]. simpl.
  split; [reflexivity|]. split; [reflexivity|].
  rewrite opened_from_length. split; [reflexivity | lia].
Qed.

Lemma scan_postcondition_witness :
  exists c' r,
    scan_once (fresh 1000) steady_model (FixedSizer 50) two_level_book
      [snapshot "btc-120k"; snapshot "eth-5k"] = (c', Ok r) /\
    trade_ids r = seq 1 (length (orders_placed r)) /\
    cash_after r + open_notional (opened_from (res_run_id r) 1 (orders_placed r)) == 1000.
Proof.
  destruct (scan_once (fresh 1000) steady_model (FixedSizer 50) two_level_book
              [snapshot "btc-120k"; snapshot "eth-5k"]) as [c' [r|]] eqn:E.
  - destruct (scan_postcondition (fresh 1000) _ _ _ _ c' r
                {| starting_bankroll := 1000; cash := 1000 |} eq_refl E)
      as (_ & _ & H3 & _ & _ & H6 & _).
    exists c', r. split; [reflexivity|]. split; [exact H3 | exact H6].
  - apply (f_equal snd) in E. vm_compute in E. discriminate.
Defined.

End LedgerMore.

(** ** Ledger: settled markets, the trade history *)

Module LedgerHistory.
Import Ledger Engine LedgerProps EngineProps LedgerMore.

Lemma payout_per_share_cases s o : payout_per_share s o = 0 \/ payout_per_share s o = 1.
Proof.
  unfold payout_per_share.
  destruct (String.eqb s "buy_yes"); [destruct o; auto|].
  destruct (String.eqb s "buy_no"); [destruct o; auto | auto].
Qed.

Lemma selected_settle_one slug o o' t :
  selected slug (settle_one slug o t) = false /\
  (selected slug t = false -> selected slug (settle_one slug o' t) = false).
Proof.
  unfold settle_one. destruct (selected slug t) eqn:E; [|split; [exact E | now intros _]].
  split; [reflexivity | discriminate].
Qed.

Lemma filter_settled slug o ts :
  List.filter (selected slug) (map (settle_one slug o) ts) = [].
Proof.
  induction ts as [|t rest IH]; simpl; [reflexivity|].
  rewrite (proj1 (selected_settle_one slug o o t)). exact IH.
Qed.

(** X9. A market is paid out once.  After [close_market_positions] has
    settled a market, settling the same market again, with either
    outcome, closes no trade and leaves the account, the runs and every
    trade row as they are. *)
Theorem settle_once :
  forall c slug outcome_yes again c1 closed,
    List.NoDup (map trade_id (trades (cur c))) ->
    close_market_positions c slug outcome_yes = (c1, Ok closed) ->
    exists c2,
      close_market_positions c1 slug again = (c2, Ok []) /\
      cur c2 = cur c1 /\ on_disk c2 = cur c1.
Proof.
  intros c slug o o' c1 closed Hnd H.
  destruct (account (cur c)) as [a|] eqn:Ha.
  2:{ unfold close_market_positions, get_account in H. rewrite Ha in H. discriminate. }
  destruct (close_market_positions_unfold c slug o a Hnd Ha) as (cash' & closed' & _ & _ & E).
  rewrite E in H. cbv zeta in H. injection H as <- _.
  unfold close_market_positions, get_account. simpl.
  fold (selected slug).
  rewrite filter_settled. simpl. eexists. split; [reflexivity|]. split; reflexivity.
Qed.

Lemma settle_once_witness :
  exists c1 closed c2,
    close_market_positions (connect sample_db) "btc-120k" true = (c1, Ok closed) /\
    close_market_positions c1 "btc-120k" false = (c2, Ok []) /\
    cur c2 = cur c1.
Proof.
  destruct (close_market_positions (connect sample_db) "btc-120k" true) as [c1 [closed|]] eqn:E.
  - destruct (settle_once (connect sample_db) "btc-120k" true false c1 closed) as (c2 & H1 & H2 & _).
    + simpl. repeat constructor; simpl; intuition congruence.
    + exact E.
    + exists c1, closed, c2. split; [reflexivity|]. split; assumption.
  - apply (f_equal snd) in E. vm_compute in E. discriminate.
Defined.

(** How a trade row can change: not at all, or from open to closed with
    a payout per share of 0 or 1, keeping every field of the entry. *)
Inductive evolves : Trade -> Trade -> Prop :=
| unchanged t : evolves t t
| settled t pps :
    status t = Open -> pps = 0 \/ pps = 1 ->
    evolves t (closed_row pps (trade_shares t * pps - notional_usd t) t).

Lemma evolves_trans t1 t2 t3 : evolves t1 t2 -> evolves t2 t3 -> evolves t1 t3.
Proof.
  intros H12 H23. destruct H23 as [t2 | t2 pps Hs Hp]; [exact H12|].
  destruct H12 as [t1 | t1 pps' Hs' Hp']; [now constructor | discriminate].
Qed.

Lemma evolves_settle_one slug o t : evolves t (settle_one slug o t).
Proof.
  unfold settle_one. destruct (selected slug t) eqn:E; [|constructor].
  unfold selected in E. apply andb_true_iff in E. destruct E as [E _].
  rewrite <- payout_per_share_spec. constructor.
  - now destruct (status t).
  - apply payout_per_share_cases.
Qed.

(** The trades of [c'] are those of [c], each possibly settled, followed
    by new rows. *)
Definition extends (ts ts' : list Trade) : Prop :=
  exists old' new, ts' = old' ++ new /\ Forall2 evolves ts old'.

Lemma extends_refl ts : extends ts ts.
Proof.
  exists ts, []. split; [now rewrite app_nil_r|].
  induction ts; constructor; [constructor | assumption].
Qed.

Lemma Forall2_evolves_trans ts1 : forall ts2 ts3,
  Forall2 evolves ts1 ts2 -> Forall2 evolves ts2 ts3 -> Forall2 evolves ts1 ts3.
Proof.
  induction ts1 as [|t rest IH]; intros ts2 ts3 H12 H23.
  - inversion H12; subst. inversion H23; subst. constructor.
  - inversion H12 as [|? t2 ? r2 Ht Hr]; subst.
    inversion H23 as [|? t3 ? r3 Ht' Hr']; subst.
    constructor; [eapply evolves_trans; eassumption | eapply IH; eassumption].
Qed.

Lemma extends_trans ts1 ts2 ts3 : extends ts1 ts2 -> extends ts2 ts3 -> extends ts1 ts3.
Proof.
  intros (o2 & n2 & -> & H12) (o3 & n3 & -> & H23).
  apply Forall2_app_inv_l in H23. destruct H23 as (o3' & n3' & Ho & Hn & ->).
  exists o3', (n3' ++ n3). split; [now rewrite app_assoc|].
  eapply Forall2_evolves_trans; eassumption.
Qed.

Lemma place_orders_trades model sizer fetch_book snapshots :
  forall c cash_ n rows,
    trades (cur (fst (place_orders model sizer fetch_book snapshots c cash_ n rows)))
      = trades (cur c).
Proof.
  induction snapshots as [|snap rest IH]; intros c cash_ n rows; simpl; [reflexivity|].
  destruct (evaluate model snap) as [[sig|]|]; [| now apply IH | reflexivity].
  destruct (size sizer sig cash_) as [order|]; [| now apply IH].
  destruct (ltb cash_ (order_usd order)); [now apply IH|].
  destruct (fetch_book (ord_token_id order)) as [[book|]|]; [| now apply IH | reflexivity].
  destruct (Fill.simulate_buy book (order_usd order)) as [fill|]; [| now apply IH].
  now rewrite IH.
Qed.

Lemma scan_once_trades c model sizer fetch_book snapshots :
  exists new,
    trades (cur (fst (scan_once c model sizer fetch_book snapshots))) = trades (cur c) ++ new /\
    map trade_id new = seq (S (length (trades (cur c)))) (length new).
Proof.
  unfold scan_once, get_account.
  destruct (account (cur c)) as [a|]; [|exists []; split; [now rewrite app_nil_r | reflexivity]].
  pose proof (place_orders_trades model sizer fetch_book snapshots c (cash a) 0 []) as Hp.
  destruct (place_orders _ _ _ _ _ _ _ _) as [c1 [[[cash1 n1] rows1]|]]; simpl in Hp.
  - unfold insert_run.
    match goal with |- context [insert_trades ?c2 ?run rows1 []] =>
      destruct (insert_trades_spec run rows1 c2 []) as (c3 & Ei & I1 & _) end.
    rewrite Ei. simpl in *. rewrite Hp in I1. eexists. split; [exact I1|].
    now rewrite opened_from_ids, opened_from_length.
  - exists []. simpl. split; [now rewrite Hp, app_nil_r | reflexivity].
Qed.

Lemma run_command_history c cmd :
  wf (trades (cur c)) ->
  wf (trades (cur (fst (run_command c cmd)))) /\
  extends (trades (cur c)) (trades (cur (fst (run_command c cmd)))).
Proof.
  intros Hwf. destruct cmd as [model sizer fetch_book snapshots | slug_ o]; simpl.
  - destruct (scan_once_trades c model sizer fetch_book snapshots) as (new & Ht & Hid).
    assert (E : fst (match scan_once c model sizer fetch_book snapshots with
                     | (c', Ok _) => (c', true)
                     | (c', Raised) => (c', false)
                     end) = fst (scan_once c model sizer fetch_book snapshots)).
    { now destruct (scan_once c model sizer fetch_book snapshots) as [c' [r|]]. }
    rewrite E, Ht. split.
    + unfold wf in *. rewrite map_app, length_app, Hwf, Hid, seq_app. reflexivity.
    + exists (trades (cur c)), new. split; [reflexivity|].
      clear. induction (trades (cur c)); constructor; [constructor | assumption].
  - destruct (account (cur c)) as [a|] eqn:Ha.
    + destruct (close_market_positions_unfold c slug_ o a (wf_NoDup _ Hwf) Ha)
        as (cash' & closed' & _ & _ & E).
      rewrite E. cbv zeta. simpl. split.
      * unfold wf in *. rewrite map_map, length_map, <- Hwf.
        apply map_ext. intros t. apply settle_one_id.
      * exists (map (settle_one slug_ o) (trades (cur c))), [].
        split; [now rewrite app_nil_r|].
        clear. induction (trades (cur c)); simpl; constructor;
          [apply evolves_settle_one | assumption].
    + unfold close_market_positions, get_account. rewrite Ha. simpl.
      split; [exact Hwf | apply extends_refl].
Qed.

Lemma run_commands_history cmds : forall c,
  wf (trades (cur c)) ->
  wf (trades (cur (fst (run_commands c cmds)))) /\
  extends (trades (cur c)) (trades (cur (fst (run_commands c cmds)))).
Proof.
  induction cmds as [|cmd rest IH]; intros c Hwf; simpl.
  - split; [exact Hwf | apply extends_refl].
  - destruct (run_command_history c cmd Hwf) as [H1 H2].
    destruct (run_command c cmd) as [c1 ok1]. simpl in H1, H2.
    destruct (IH c1 H1) as [H3 H4].
    destruct (run_commands c1 rest) as [c2 ok2]. simpl in *.
    split; [exact H3 | eapply extends_trans; eassumption].
Qed.

Lemma Forall2_evolves_closed ts : forall ts' t,
  Forall2 evolves ts ts' -> In t ts -> status t = Closed -> In t ts'.
Proof.
  induction ts as [|u rest IH]; intros ts' t H Hin Hc; [destruct Hin|].
  inversion H as [|? u' ? rest' Hu Hrest]; subst.
  destruct Hin as [->|Hin].
  - left. destruct Hu as [u | u pps Hs Hp]; [reflexivity | congruence].
  - right. now apply IH.
Qed.

(** X10. The trade table is a history.  From a table with the ids
    AUTOINCREMENT hands out, any sequence of scans and settlements,
    failing or not, keeps such a table; every row that was there is
    still there at its place, either as it was or settled from open to
    closed with payout per share 0 or 1 and PnL [shares * payout -
    notional], its entry fields untouched; new rows only come after the
    old ones; a closed trade is never changed again. *)
Theorem history_append_only :
  forall c cmds,
    wf (trades (cur c)) ->
    let c' := fst (run_commands c cmds) in
    wf (trades (cur c')) /\
    (exists old' new, trades (cur c') = old' ++ new /\ Forall2 evolves (trades (cur c)) old') /\
    (length (trades (cur c)) <= length (trades (cur c')))%nat /\
    (forall t, In t (trades (cur c)) -> status t = Closed -> In t (trades (cur c'))).
Proof.
  intros c cmds Hwf c'.
  destruct (run_commands_history cmds c Hwf) as [H1 H2]. fold c' in H1, H2.
  split; [exact H1|]. split; [exact H2|].
  destruct H2 as (old' & new & E & HF). split.
  - rewrite E, length_app. apply Forall2_length in HF. lia.
  - intros t Hin Hc. rewrite E. apply in_or_app. left.
    eapply Forall2_evolves_closed; eassumption.
Qed.

(** A table that already holds two open trades, one on ["btc-120k"]
    and one on ["eth-5k"]: the first market is settled, a scan adds a
    trade on it, and it is settled again with the other outcome. *)
Definition sample_commands : list Command :=
  [Resolve "btc-120k" true;
   Scan steady_model (FixedSizer 50) two_level_book [snapshot "btc-120k"];
   Resolve "btc-120k" false].

Lemma history_append_only_witness :
  let c := connect sample_db in
  let c' := fst (run_commands c sample_commands) in
  wf (trades (cur c')) /\
  (exists old' new, trades (cur c') = old' ++ new /\ Forall2 evolves (trades (cur c)) old') /\
  (length (trades (cur c)) <= length (trades (cur c')))%nat /\
  (forall t, In t (trades (cur c)) -> status t = Closed -> In t (trades (cur c'))) /\
  map status (trades (cur c)) = [Open; Open] /\
  map status (trades (cur c')) = [Closed; Open; Closed].
Proof.
  intros c c'.
  destruct (history_append_only (connect sample_db) sample_commands eq_refl)
    as (H1 & H2 & H3 & H4).
  split; [exact H1|]. split; [exact H2|]. split; [exact H3|]. split; [exact H4|].
  split; reflexivity.
Defined.

End LedgerHistory.

(** ** The [account] figures *)

Module AccountProps.
Import Ledger Engine Account LedgerProps EngineProps.

Lemma sum_acc xs : forall a, fold_left Qplus xs a == a + sum xs.
Proof.
  unfold sum. induction xs as [|x rest IH]; intros a; simpl; [lra|].
  rewrite (IH (a + x)), (IH (0 + x)). lra.
Qed.

Lemma sum_cons x xs : sum (x :: xs) == x + sum xs.
Proof. unfold sum at 1. simpl. rewrite sum_acc. lra. Qed.

(** The open rows whose midpoint request gives a number. *)
Definition marked (fetch_midpoint : string -> result (option Q)) (t : Trade) : bool :=
  match fetch_midpoint (token_id t) with
  | Ok (Some _) => true
  | _ => false
  end.

Definition unmarked (fetch_midpoint : string -> result (option Q)) (t : Trade) : bool :=
  negb (marked fetch_midpoint t).

Lemma mark_rows_sums fetch rows : forall ps,
  mark_rows fetch rows = Ok ps ->
  map pos_trade ps = List.filter (marked fetch) rows /\
  sum (map mark_value ps)
    == sum (map unrealized_pnl ps) + sum (map notional_usd (List.filter (marked fetch) rows)).
Proof.
  induction rows as [|r rest IH]; intros ps H; simpl in H.
  - injection H as <-. simpl. split; [reflexivity | unfold sum; simpl; lra].
  - unfold marked at 1 2. simpl.
    destruct (fetch (token_id r)) as [[mid|]|]; [| now apply IH | discriminate].
    destruct (mark_rows fetch rest) as [out|]; [|discriminate].
    injection H as <-. destruct (IH out eq_refl) as [I1 I2]. simpl.
    split; [now rewrite I1|].
    fold (marked fetch). rewrite !sum_cons, I2. lra.
Qed.

Lemma open_split (f : Trade -> bool) ts :
  open_notional ts
  == open_notional (List.filter f ts) + open_notional (List.filter (fun t => negb (f t)) ts).
Proof.
  induction ts as [|t rest IH]; simpl; [lra|].
  destruct (f t); simpl; rewrite IH; lra.
Qed.

Lemma open_of_open ts :
  open_notional (List.filter (fun t => is_open (status t)) ts) == open_notional ts /\
  forall f, open_notional (List.filter f (List.filter (fun t => is_open (status t)) ts))
            == sum (map notional_usd (List.filter f (List.filter (fun t => is_open (status t)) ts))).
Proof.
  split.
  - induction ts as [|t rest IH]; simpl; [lra|].
    destruct (status t) eqn:E; simpl; rewrite ?E; simpl; rewrite IH; lra.
  - intros f. induction ts as [|t rest IH]; simpl; [unfold sum; simpl; lra|].
    destruct (status t) eqn:E; simpl; [|exact IH].
    destruct (f t); simpl; [|exact IH].
    rewrite E, sum_cons, IH. simpl. lra.
Qed.

Lemma realized_of_closed ts :
  realized_total (List.filter (fun t => negb (is_open (status t))) ts) == realized_total ts.
Proof.
  induction ts as [|t rest IH]; simpl; [lra|].
  destruct (status t) eqn:E; simpl; rewrite ?E; simpl; rewrite IH; lra.
Qed.

(** X11. The PnL the [account] command reports.  On a ledger reached
    from initialisation by scans and settlements that returned, the
    command (when no request raises) reports
    [pnl = realized PnL of the closed trades + unrealized PnL of the
    marked positions - notional of the open trades whose midpoint is
    not available]: a position that cannot be marked is counted as
    worth nothing.  The equity is the cash plus the mark value of the
    marked positions, which are the open trades with a midpoint. *)
Theorem account_pnl :
  forall bankroll cmds c fetch_midpoint out,
    run_commands (init_db (connect empty_db) bankroll) cmds = (c, true) ->
    account_cmd c fetch_midpoint = Ok out ->
    exists positions,
      mark_open_positions c fetch_midpoint = Ok positions /\
      map pos_trade positions = List.filter (marked fetch_midpoint) (list_open_trades c) /\
      out_open_positions out = length positions /\
      out_starting_bankroll out = bankroll /\
      equity out == out_cash out + sum (map mark_value positions) /\
      pnl out == realized_total (list_closed_trades c)
                 + sum (map unrealized_pnl positions)
                 - sum (map notional_usd
                          (List.filter (unmarked fetch_midpoint) (list_open_trades c))).
Proof.
  intros bankroll cmds c fetch out Hrun H.
  apply (run_commands_good bankroll) in Hrun; [|apply init_good].
  destruct Hrun as (_ & _ & a & Ha & Hb & Hc).
  unfold account_cmd, get_account in H. rewrite Ha in H.
  destruct (mark_open_positions c fetch) as [ps|] eqn:Em; [|discriminate].
  injection H as <-. exists ps. simpl.
  unfold mark_open_positions in Em. apply mark_rows_sums in Em. destruct Em as [M1 M2].
  split; [reflexivity|]. split; [exact M1|]. split; [reflexivity|]. split; [exact Hb|].
  split; [reflexivity|].
  unfold list_closed_trades, list_open_trades in *.
  destruct (open_of_open (trades (cur c))) as [O1 O2].
  pose proof (open_split (marked fetch)
                (List.filter (fun t => is_open (status t)) (trades (cur c)))) as Hs.
  rewrite O1 in Hs. rewrite (O2 (marked fetch)) in Hs.
  rewrite (O2 (fun t => negb (marked fetch t))) in Hs.
  unfold unmarked. rewrite realized_of_closed, M2, Hb. lra.
Qed.

(** Midpoints: 0.55 for the yes token of ["btc-120k"], none for any
    other token. *)
Definition sample_midpoints (token : string) : result (option Q) :=
  if String.eqb token "btc-120k-yes" then Ok (Some (55 # 100)) else Ok None.

Lemma account_pnl_witness :
  exists c out,
    run_commands (fresh 1000)
      [Scan steady_model (FixedSizer 50) two_level_book [snapshot "btc-120k"; snapshot "eth-5k"]]
      = (c, true) /\
    account_cmd c sample_midpoints = Ok out /\
    out_open_positions out = 1%nat /\
    out_starting_bankroll out = 1000.
Proof.
  destruct (run_commands (fresh 1000)
      [Scan steady_model (FixedSizer 50) two_level_book [snapshot "btc-120k"; snapshot "eth-5k"]])
    as [c ok] eqn:E.
  assert (Hok : ok = true) by (apply (f_equal snd) in E; vm_compute in E; now symmetry).
  subst ok.
  pose proof (f_equal fst E) as Ec. vm_compute in Ec.
  destruct (account_cmd c sample_midpoints) as [out|] eqn:Ea.
  - destruct (account_pnl 1000 _ c sample_midpoints out E Ea) as (ps & _ & _ & _ & Hb & _).
    exists c, out. split; [reflexivity|]. split; [exact Ea|]. split; [|exact Hb].
    subst c. vm_compute in Ea. injection Ea as <-. reflexivity.
  - subst c. vm_compute in Ea. discriminate.
Defined.

Lemma wins_le (f : Trade -> bool) ts : (length (List.filter f ts) <= length ts)%nat.
Proof. induction ts as [|t rest IH]; simpl; [lia | destruct (f t); simpl; lia]. Qed.

(** X12. The figures of [_experiment_metrics] against those of
    [account], on the same database and the same midpoints.  The two
    succeed or fail together; the win rate is between 0 and 1; and the
    two equity figures differ: [account] adds the mark value of the
    marked positions to the cash, [_experiment_metrics] adds their
    unrealized PnL, so it reports less by the notional of the marked
    positions. *)
Theorem equity_figures :
  forall c fetch_midpoint,
    match experiment_metrics c fetch_midpoint, account_cmd c fetch_midpoint with
    | Ok m, Ok out =>
        0 <= win_rate m <= 1 /\
        met_cash m = out_cash out /\
        met_open_positions m = out_open_positions out /\
        equity out - met_equity m
          == sum (map notional_usd
                    (List.filter (marked fetch_midpoint) (list_open_trades c)))
    | Raised, Raised => True
    | _, _ => False
    end.
Proof.
  intros c fetch. unfold experiment_metrics, account_cmd.
  destruct (get_account c) as [acct|]; [|exact I].
  destruct (mark_open_positions c fetch) as [ps|] eqn:Em; [|exact I].
  unfold mark_open_positions in Em. apply mark_rows_sums in Em. destruct Em as [M1 M2].
  cbv zeta. simpl. split; [|split; [reflexivity|split; [reflexivity|rewrite M2; ring]]].
  destruct (list_closed_trades c) as [|t rest] eqn:Ec; [lra|].
  set (closed := t :: rest).
  pose proof (wins_le (fun r => ltb 0 (realized_or_zero r)) closed) as Hw.
  set (wins := length (List.filter (fun r => ltb 0 (realized_or_zero r)) closed)) in *.
  assert (Hn : 0 < inject_Z (Z.of_nat (length closed))).
  { change 0 with (inject_Z 0). rewrite <- Zlt_Qlt. unfold closed. simpl length. lia. }
  clearbody wins.
  assert (H0 : 0 <= inject_Z (Z.of_nat wins)).
  { change 0 with (inject_Z 0). rewrite <- Zle_Qle. lia. }
  assert (H1 : inject_Z (Z.of_nat wins) <= inject_Z (Z.of_nat (length closed))).
  { rewrite <- Zle_Qle. lia. }
  split.
  - apply Qle_shift_div_l; [exact Hn | lra].
  - apply Qle_shift_div_r; [exact Hn | lra].
Qed.

End AccountProps.
